(** * nav2_navfn_planner: the NavfnPlanner plugin (navfn_planner.cpp)

    A shallow embedding of [NavfnPlanner]'s planning entry points and of the
    coordinate mapping they rest on, with the properties the specification
    states about them.

    Number model.  A C++ [double] is a binary64 floating-point number, Rocq's
    primitive [float]: every sum, difference, product, quotient and square
    root rounds once, to nearest, ties to even (no extended precision, no
    fused multiply-add); the infinities, NaN and the two zeros are values
    like the others, and a comparison with NaN is false.
    The [float] arrays of the solver hold binary32 values, which convert to
    [double] exactly; they are carried as the doubles they convert to.
    Where the source runs into undefined behaviour (a floating-integral
    conversion of NaN, of an infinity or of a value out of range; an index
    outside a vector), the model stops with [Stuck].  [unsigned int], [int]
    and [size_t] are integers ([Z]) with their wrap-around written out.
    Loops that the source bounds only by a floating-point test take fuel and
    answer [OutOfFuel] when it runs out. *)

From Stdlib Require Import ZArith QArith Qpower Qround Qabs List Bool String Lia Lqa.
From Stdlib Require Import Floats.
Import ListNotations.

(* A decimal literal denotes the nearest double, as it does in C++. *)
Set Warnings "-inexact-float".

Local Open Scope float_scope.

(** ** Outcomes of a call *)

Inductive comp (A : Type) : Type :=
| Ret (a : A)   (* the call returns [a] *)
| Stuck         (* undefined behaviour *)
| OutOfFuel.     (* the loop fuel ran out *)

Arguments Ret {A} a.
Arguments Stuck {A}.
Arguments OutOfFuel {A}.

Definition bind {A B : Type} (c : comp A) (k : A -> comp B) : comp B :=
  match c with
  | Ret a => k a
  | Stuck => Stuck
  | OutOfFuel => OutOfFuel
  end.

Declare Scope comp_scope.
Delimit Scope comp_scope with comp.
Notation "x <- c ;; k" := (bind c (fun x => k))
  (at level 61, c at next level, right associativity) : comp_scope.
Notation "' p <- c ;; k" := (bind c (fun x => match x with p => k end))
  (at level 61, p pattern, c at next level, right associativity) : comp_scope.
Local Open Scope comp_scope.

(** ** Machine integers *)

Definition INT_MAX : Z := 2 ^ 31 - 1.
Definition INT_MIN : Z := - 2 ^ 31.

(** Conversion of an [int] to [unsigned int]: modulo 2^32. *)
Definition to_unsigned (z : Z) : Z := (z mod 2 ^ 32)%Z.

(** Conversion of an [unsigned int] to [int]: the two's complement reading. *)
Definition to_int (u : Z) : Z :=
  let r := (u mod 2 ^ 32)%Z in
  if (r <=? INT_MAX)%Z then r else (r - 2 ^ 32)%Z.

(** ** Doubles *)

(** [std::numeric_limits<double>::max()], the largest finite binary64 value:
    (2^53 - 1) * 2^971. *)
Definition DBL_MAX : float := 0x1.fffffffffffffp+1023.

(** The powers of two, as rational numbers. *)
Definition pow2 (e : Z) : Q := Qpower 2 e.

(** The exact value of a finite double in its sign, mantissa and exponent
    form, a rational number; [None] for NaN and the infinities. *)
Definition SFvalue (f : spec_float) : option Q :=
  match f with
  | S754_zero _ => Some 0%Q
  | S754_finite s m e =>
      let v := (inject_Z (Z.pos m) * pow2 e)%Q in
      Some (if s then (- v)%Q else v)
  | S754_infinity _ | S754_nan => None
  end.

Definition double_value (d : float) : option Q := SFvalue (Prim2SF d).

(** Conversion of an integer ([unsigned int], [size_t]) to [double]: the
    nearest double, ties to even. *)
Definition double_of_Z (z : Z) : float :=
  SF2Prim (binary_normalize prec emax z 0 false).

(** Truncation toward zero, the rounding of a floating-integral conversion. *)
Definition Qtrunc (q : Q) : Z :=
  if Qle_bool 0 q then Qfloor q else Qceiling q.

(** The nearest integer, halfway cases away from zero. *)
Definition round_half_away (q : Q) : Z :=
  if Qle_bool 0 q then Qfloor (q + (1 # 2)) else Qceiling (q - (1 # 2)).

(** What [std::round] returns: an integer-valued double, carried as the
    integer it is (the integer nearest to a double is itself a double), or
    its argument when that is a NaN or an infinity ([None]). *)
Definition rounded : Type := option Z.

(** [std::round]: to the nearest integer, halfway cases away from zero. *)
Definition std_round (d : float) : rounded :=
  option_map round_half_away (double_value d).

(** [static_cast<int>] of the result of [std::round]: undefined unless the
    value is an [int]. *)
Definition static_cast_int (r : rounded) : comp Z :=
  match r with
  | Some t => if ((INT_MIN <=? t) && (t <=? INT_MAX))%Z then Ret t else Stuck
  | None => Stuck
  end.

(** [static_cast<size_t>(double)]: truncation toward zero, undefined unless
    the truncated value is a [size_t] (64 bits). *)
Definition static_cast_size_t (d : float) : comp Z :=
  match double_value d with
  | Some q =>
      let t := Qtrunc q in
      if ((0 <=? t) && (t <? 2 ^ 64))%Z then Ret t else Stuck
  | None => Stuck
  end.

(** ** std::vector *)

Definition vec_at {A : Type} (v : list A) (i : Z) : comp A :=
  if (i <? 0)%Z then Stuck
  else match nth_error v (Z.to_nat i) with
       | Some a => Ret a
       | None => Stuck
       end.

Fixpoint vec_set {A : Type} (v : list A) (i : nat) (a : A) : list A :=
  match v, i with
  | [], _ => []
  | _ :: v', O => a :: v'
  | b :: v', S i' => b :: vec_set v' i' a
  end.

Definition push_back {A : Type} (v : list A) (a : A) : list A := v ++ [a].

Definition vec_size {A : Type} (v : list A) : Z := Z.of_nat (List.length v).

Definition vec_empty {A : Type} (v : list A) : bool :=
  match v with [] => true | _ :: _ => false end.

(** ** geometry_msgs and nav_msgs *)

Module Point.
Record t : Type := mk { x : float; y : float; z : float }.
Definition set_x (p : t) (v : float) : t := mk v (y p) (z p).
Definition set_y (p : t) (v : float) : t := mk (x p) v (z p).
End Point.

Module Quaternion.
Record t : Type := mk { x : float; y : float; z : float; w : float }.
End Quaternion.

Module Pose.
Record t : Type := mk { position : Point.t; orientation : Quaternion.t }.
End Pose.

Module Header.
Record t : Type := mk { stamp : Z; frame_id : string }.
(** A default-constructed header. *)
Definition empty : t := mk 0%Z EmptyString.
End Header.

Module PoseStamped.
Record t : Type := mk { header : Header.t; pose : Pose.t }.
Definition set_pose (p : t) (q : Pose.t) : t := mk (header p) q.
End PoseStamped.

Module Path.
Record t : Type := mk { header : Header.t; poses : list PoseStamped.t }.
Definition set_poses (p : t) (l : list PoseStamped.t) : t := mk (header p) l.
Definition set_header (p : t) (h : Header.t) : t := mk h (poses p).
End Path.

(** Modelled from the spec: [squared_distance] is declared in
    navfn_planner.hpp, which is not among the sources; the spec calls it the
    squared Euclidean distance of two poses in the plane. *)
Definition squared_distance (p1 p2 : Pose.t) : float :=
  let dx := Point.x (Pose.position p1) - Point.x (Pose.position p2) in
  let dy := Point.y (Pose.position p1) - Point.y (Pose.position p2) in
  dx * dx + dy * dy.

(** ** The cost grid (nav2_costmap_2d::Costmap2D) *)

(** Modelled from the spec: the Costmap2D class is an external collaborator;
    the spec gives it a width and height in cells, a resolution, the world
    origin of cell (0,0), a dense cost array, and a hook that sets one
    cell's cost. *)
Record Costmap2D : Type := mkCostmap2D {
  getSizeInCellsX : Z;       (* unsigned int *)
  getSizeInCellsY : Z;       (* unsigned int *)
  getResolution : float;
  getOriginX : float;
  getOriginY : float;
  getCharMap : list Z
}.

(** Modelled from the spec: the free cost value of cost_values.hpp, which is
    not among the sources; the spec has small non-negative integers.  0 is
    nav2's free cost. *)
Definition FREE_SPACE : Z := 0%Z.

(** Modelled from the spec: the distinguished lethal cost value; 254 is
    nav2's. *)
Definition LETHAL_OBSTACLE : Z := 254%Z.

(** Modelled from the spec: the hook that sets one cell's cost, a write at
    the cell's row-major index. *)
Definition setCost (cm : Costmap2D) (mx my cost : Z) : Costmap2D :=
  mkCostmap2D (getSizeInCellsX cm) (getSizeInCellsY cm) (getResolution cm)
    (getOriginX cm) (getOriginY cm)
    (vec_set (getCharMap cm) (Z.to_nat (my * getSizeInCellsX cm + mx)) cost).

(** ** CoordinateMapper: worldToMap and mapToWorld *)

Definition worldToMap (cm : Costmap2D) (wx wy : float) : comp (option (Z * Z)) :=
  if (wx <? getOriginX cm) || (wy <? getOriginY cm) then Ret None
  else
    ix <- static_cast_int
            (std_round ((wx - getOriginX cm) / getResolution cm)) ;;
    let mx := to_unsigned ix in
    iy <- static_cast_int
            (std_round ((wy - getOriginY cm) / getResolution cm)) ;;
    let my := to_unsigned iy in
    if ((mx <? getSizeInCellsX cm) && (my <? getSizeInCellsY cm))%Z
    then Ret (Some (mx, my))
    else Ret None.

Definition mapToWorld (cm : Costmap2D) (mx my : float) : float * float :=
  (getOriginX cm + mx * getResolution cm,
   getOriginY cm + my * getResolution cm).

(** ** The potential-field solver (NavFn) *)

(** Modelled from the spec: [POT_HIGH] is a macro of navfn.hpp, which is not
    among the sources; the spec describes it as the sentinel of an unreached
    cell, "a very large finite number, e.g. 1e10". *)
Definition POT_HIGH : float := 1e10.

(** Modelled from the spec: the state of the solver.  The class NavFn
    (navfn.hpp, navfn.cpp) is not among the sources; the planner reads its
    members [nx], [ny] and [potarr] and the path it extracted, and the spec
    gives it a seed cell, where path extraction starts, and a source cell,
    where propagation started. *)
Record NavFn : Type := mkNavFn {
  nx : Z;                    (* int *)
  ny : Z;                    (* int *)
  potarr : list float;       (* float *, one potential per cell *)
  getPathX : list float;     (* float * *)
  getPathY : list float;     (* float * *)
  getPathLen : Z;            (* int *)
  seed : Z * Z;              (* what setStart stored *)
  source : Z * Z             (* what setGoal stored *)
}.

(** The methods of [NavFn] that the planner calls: an interface, since their
    bodies are not among the sources.  Each takes the solver's state and
    returns the new one, next to the value the C++ method returns. *)
Class NavFnSolver : Type := {
  setNavArr : Z -> Z -> NavFn -> NavFn;
  setCostmap : list Z -> bool -> bool -> NavFn -> NavFn;
  setStart : Z * Z -> NavFn -> NavFn;
  setGoal : Z * Z -> NavFn -> NavFn;
  calcNavFnAstar : NavFn -> bool * NavFn;
  calcNavFnDijkstra : bool -> NavFn -> bool * NavFn;
  calcPath : Z -> NavFn -> Z * NavFn
}.

(** ** PathExtractor *)

Module PathExtractor.

(** Modelled from the spec: the potential of a cell; a cell outside the grid
    or the array is unreached. *)
Definition potential_at (pl : NavFn) (c : Z * Z) : float :=
  if ((0 <=? fst c) && (fst c <? nx pl) && (0 <=? snd c) && (snd c <? ny pl))%Z
  then nth (Z.to_nat (snd c * nx pl + fst c)) (potarr pl) POT_HIGH
  else POT_HIGH.

(** Modelled from the spec: the neighbours of a cell in "a fixed
    neighbor-scan order", here row by row and west to east. *)
Definition neighbours (c : Z * Z) : list (Z * Z) :=
  let '(cx, cy) := c in
  [(cx - 1, cy - 1); (cx, cy - 1); (cx + 1, cy - 1);
   (cx - 1, cy);                   (cx + 1, cy);
   (cx - 1, cy + 1); (cx, cy + 1); (cx + 1, cy + 1)]%Z.

(** Modelled from the spec: one comparison of the scan; only a strictly
    lower potential replaces the best cell so far, so among equals the first
    in scan order stays. *)
Definition lower (pl : NavFn) (best n : Z * Z) : Z * Z :=
  if potential_at pl n <? potential_at pl best then n else best.

(** Modelled from the spec: one step of the descent, "to the neighbor with
    the strictly lowest potential"; [None] on "a local plateau with no
    strictly-lower neighbor". *)
Definition step (pl : NavFn) (c : Z * Z) : option (Z * Z) :=
  let best := fold_left (lower pl) (neighbours c) c in
  if potential_at pl best <? potential_at pl c then Some best else None.

Definition cell_eqb (a b : Z * Z) : bool :=
  ((fst a =? fst b) && (snd a =? snd b))%Z.

(** Modelled from the spec: the descent from cell [c] with at most [bound]
    steps; the cells from [c] to the source when the source is reached,
    [None] when the bound is exceeded or a plateau is met before. *)
Fixpoint descend (pl : NavFn) (bound : nat) (c : Z * Z) : option (list (Z * Z)) :=
  if cell_eqb c (source pl) then Some [c]
  else
    match bound with
    | O => None
    | S bound' =>
        match step pl c with
        | Some c' => option_map (cons c) (descend pl bound' c')
        | None => None
        end
    end.

(** Modelled from the spec: the seed of the descent and the source of the
    propagation are stored by [setStart] and [setGoal]. *)
Definition setStart (c : Z * Z) (pl : NavFn) : NavFn :=
  mkNavFn (nx pl) (ny pl) (potarr pl) (getPathX pl) (getPathY pl)
    (getPathLen pl) c (source pl).

Definition setGoal (c : Z * Z) (pl : NavFn) : NavFn :=
  mkNavFn (nx pl) (ny pl) (potarr pl) (getPathX pl) (getPathY pl)
    (getPathLen pl) (seed pl) c.

(** Modelled from the spec: [calcPath (n)] traces the path from the seed with
    at most [n] steps (none fits a negative [n]) and returns its length, 0
    for "no path"; the path is left in the solver, "index 0 is the seed and
    the last index is the propagation source". *)
Definition calcPath (n : Z) (pl : NavFn) : Z * NavFn :=
  match (if (n <? 0)%Z then None else descend pl (Z.to_nat n) (seed pl)) with
  | Some cells =>
      (vec_size cells,
       mkNavFn (nx pl) (ny pl) (potarr pl)
         (map (fun c => double_of_Z (fst c)) cells)
         (map (fun c => double_of_Z (snd c)) cells)
         (vec_size cells) (seed pl) (source pl))
  | None =>
      (0%Z,
       mkNavFn (nx pl) (ny pl) (potarr pl) [] [] 0 (seed pl) (source pl))
  end.

End PathExtractor.

(** ** NavfnPlanner *)

Record NavfnPlanner : Type := mkNavfnPlanner {
  costmap_ : Costmap2D;
  planner_ : NavFn;
  global_frame_ : string;
  tolerance_ : float;
  use_astar_ : bool;
  allow_unknown_ : bool;
  node_now : Z               (* what node_->now() answers *)
}.

Definition with_costmap (self : NavfnPlanner) (cm : Costmap2D) : NavfnPlanner :=
  mkNavfnPlanner cm (planner_ self) (global_frame_ self) (tolerance_ self)
    (use_astar_ self) (allow_unknown_ self) (node_now self).

Definition with_planner (self : NavfnPlanner) (pl : NavFn) : NavfnPlanner :=
  mkNavfnPlanner (costmap_ self) pl (global_frame_ self) (tolerance_ self)
    (use_astar_ self) (allow_unknown_ self) (node_now self).

Definition clearRobotCell (self : NavfnPlanner) (mx my : Z) : NavfnPlanner :=
  with_costmap self (setCost (costmap_ self) mx my FREE_SPACE).

(** The pose the planning loops build: a position in the plane, z = 0, and
    the identity orientation, under a default header. *)
Definition waypoint (wx wy : float) : PoseStamped.t :=
  PoseStamped.mk Header.empty
    (Pose.mk (Point.mk wx wy 0) (Quaternion.mk 0 0 0 1)).

(** [geometry_msgs::msg::PoseStamped goal_copy; goal_copy.pose = goal;] *)
Definition goal_copy (goal : Pose.t) : PoseStamped.t :=
  PoseStamped.mk Header.empty goal.

Definition getPointPotential (self : NavfnPlanner) (world_point : Point.t)
  : comp float :=
  c <- worldToMap (costmap_ self) (Point.x world_point) (Point.y world_point) ;;
  match c with
  | None => Ret DBL_MAX
  | Some (mx, my) =>
      let index := to_unsigned (my * nx (planner_ self) + mx) in
      vec_at (potarr (planner_ self)) index
  end.

Section ValidPointPotential.

Variable self : NavfnPlanner.
Variable world_point : Point.t.
Variable tolerance : float.

Let resolution : float := getResolution (costmap_ self).

(** The inner [while (p.x <= world_point.x + tolerance)] loop: [(true, p)]
    when the function returns true from inside it, [(false, p)] when the
    loop ends. *)
Fixpoint valid_scan_x (fuel : nat) (p : Point.t) : comp (bool * Point.t) :=
  match fuel with
  | O => OutOfFuel
  | S fuel' =>
      if Point.x p <=? Point.x world_point + tolerance then
        potential <- getPointPotential self p ;;
        if potential <? POT_HIGH then Ret (true, p)
        else valid_scan_x fuel' (Point.set_x p (Point.x p + resolution))
      else Ret (false, p)
  end.

(** The outer [while (p.y <= world_point.y + tolerance)] loop; every inner
    loop gets [fuel_x]. *)
Fixpoint valid_scan_y (fuel_x fuel : nat) (p : Point.t) : comp bool :=
  match fuel with
  | O => OutOfFuel
  | S fuel' =>
      if Point.y p <=? Point.y world_point + tolerance then
        '(found, p1) <-
          valid_scan_x fuel_x (Point.set_x p (Point.x world_point - tolerance)) ;;
        if found then Ret true
        else valid_scan_y fuel_x fuel' (Point.set_y p1 (Point.y p1 + resolution))
      else Ret false
  end.

Definition validPointPotential (fuel : nat) : comp bool :=
  let p := world_point in
  let p := Point.set_y p (Point.y world_point - tolerance) in
  valid_scan_y fuel fuel p.

End ValidPointPotential.

Definition smoothApproachToGoal (goal : Pose.t) (plan : Path.t) : comp Path.t :=
  let poses := Path.poses plan in
  second_to_last_pose <- vec_at poses (vec_size poses - 2) ;;
  last_pose <- vec_at poses (vec_size poses - 1) ;;
  if squared_distance goal (PoseStamped.pose second_to_last_pose)
     <? squared_distance (PoseStamped.pose last_pose)
                         (PoseStamped.pose second_to_last_pose)
  then
    Ret (Path.set_poses plan
           (vec_set poses (Nat.pred (List.length poses))
                    (PoseStamped.set_pose last_pose goal)))
  else
    Ret (Path.set_poses plan (push_back poses (goal_copy goal))).

(** The loop of [makePlan]: [count] iterations remain, the next index is
    [i]. *)
Fixpoint interpolate (start : Pose.t) (x_diff y_diff : float)
    (count : nat) (i : Z) (poses : list PoseStamped.t) : list PoseStamped.t :=
  match count with
  | O => poses
  | S count' =>
      let pose :=
        waypoint (Point.x (Pose.position start) + double_of_Z i * x_diff)
                 (Point.y (Pose.position start) + double_of_Z i * y_diff) in
      interpolate start x_diff y_diff count' (i + 1)%Z (push_back poses pose)
  end.

Section Planning.

Context {solver : NavFnSolver}.

Definition makePlan (self : NavfnPlanner) (start goal : Pose.t)
    (tolerance : float) (plan : Path.t) : comp (bool * Path.t * NavfnPlanner) :=
  let plan := Path.set_poses plan [] in
  let wx := Point.x (Pose.position start) in
  let wy := Point.y (Pose.position start) in
  c <- worldToMap (costmap_ self) wx wy ;;
  match c with
  | None => Ret (false, plan, self)
  | Some (mx, my) =>
      let self := clearRobotCell self mx my in
      let pl := setNavArr (getSizeInCellsX (costmap_ self))
                          (getSizeInCellsY (costmap_ self)) (planner_ self) in
      let pl := setCostmap (getCharMap (costmap_ self)) true
                           (allow_unknown_ self) pl in
      let self := with_planner self pl in
      let map_start := (to_int mx, to_int my) in
      let wx := Point.x (Pose.position goal) in
      let wy := Point.y (Pose.position goal) in
      c <- worldToMap (costmap_ self) wx wy ;;
      match c with
      | None => Ret (false, plan, self)
      | Some (mx, my) =>
          let map_goal := (to_int mx, to_int my) in
          let pl := setStart map_goal (planner_ self) in
          let pl := setGoal map_start pl in
          let pl := if use_astar_ self then snd (calcNavFnAstar pl)
                    else snd (calcNavFnDijkstra true pl) in
          let self := with_planner self pl in
          let resolution := getResolution (costmap_ self) in
          (* [p] and [best_pose] are set up here and read only by the search
             that the source comments out; so is [tolerance]. *)
          let path_length :=
            sqrt ((Point.x (Pose.position goal) - Point.x (Pose.position start))
                  * (Point.x (Pose.position goal) - Point.x (Pose.position start))
                  + (Point.y (Pose.position goal) - Point.y (Pose.position start))
                    * (Point.y (Pose.position goal) - Point.y (Pose.position start))) in
          number_of_points <- static_cast_size_t (path_length / resolution) ;;
          let x_diff :=
            (Point.x (Pose.position goal) - Point.x (Pose.position start))
            / double_of_Z number_of_points in
          let y_diff :=
            (Point.y (Pose.position goal) - Point.y (Pose.position start))
            / double_of_Z number_of_points in
          let plan := Path.set_header plan
                        (Header.mk (node_now self) (global_frame_ self)) in
          let poses := interpolate start x_diff y_diff
                         (Z.to_nat number_of_points) 0%Z (Path.poses plan) in
          let poses := push_back poses (goal_copy goal) in
          let plan := Path.set_poses plan poses in
          Ret (negb (vec_empty (Path.poses plan)), plan, self)
      end
  end.

(** The loop of [getPlanFromPotential], [i] running from [len - 1] down to 0:
    [count = i + 1]. *)
Fixpoint path_to_world (cm : Costmap2D) (xs ys : list float) (count : nat)
    (poses : list PoseStamped.t) : comp (list PoseStamped.t) :=
  match count with
  | O => Ret poses
  | S i =>
      xi <- vec_at xs (Z.of_nat i) ;;
      yi <- vec_at ys (Z.of_nat i) ;;
      let '(world_x, world_y) := mapToWorld cm xi yi in
      path_to_world cm xs ys i (push_back poses (waypoint world_x world_y))
  end.

(** The cycle bound [getPlanFromPotential] hands to [calcPath]:
    [costmap_->getSizeInCellsX() * 4], an [unsigned int] product passed as
    [int]. *)
Definition calcPath_bound (cm : Costmap2D) : Z :=
  to_int (to_unsigned (getSizeInCellsX cm * 4)).

Definition getPlanFromPotential (self : NavfnPlanner) (goal : Pose.t)
    (plan : Path.t) : comp (bool * Path.t * NavfnPlanner) :=
  let plan := Path.set_poses plan [] in
  let wx := Point.x (Pose.position goal) in
  let wy := Point.y (Pose.position goal) in
  c <- worldToMap (costmap_ self) wx wy ;;
  match c with
  | None => Ret (false, plan, self)
  | Some (mx, my) =>
      let map_goal := (to_int mx, to_int my) in
      let pl := setStart map_goal (planner_ self) in
      let '(path_len, pl) := calcPath (calcPath_bound (costmap_ self)) pl in
      let self := with_planner self pl in
      if (path_len =? 0)%Z then Ret (false, plan, self)
      else
        let xs := getPathX (planner_ self) in
        let ys := getPathY (planner_ self) in
        let len := getPathLen (planner_ self) in
        let plan := Path.set_header plan
                      (Header.mk (node_now self) (global_frame_ self)) in
        poses <- path_to_world (costmap_ self) xs ys (Z.to_nat len)
                   (Path.poses plan) ;;
        let plan := Path.set_poses plan poses in
        Ret (negb (vec_empty (Path.poses plan)), plan, self)
  end.

End Planning.

(** ** The remaining entry points *)

(** [planner_] is held by value here, so the first disjunct of the source,
    [!planner_.get()], is false: a released solver (after [cleanup]) is
    outside the model. *)
Definition isPlannerOutOfDate (self : NavfnPlanner) : bool :=
  negb (nx (planner_ self) =? to_int (getSizeInCellsX (costmap_ self)))%Z
  || negb (ny (planner_ self) =? to_int (getSizeInCellsY (costmap_ self)))%Z.

Section EntryPoints.

Context {solver : NavFnSolver}.

Definition createPlan (self : NavfnPlanner) (start goal : PoseStamped.t)
  : comp (Path.t * NavfnPlanner) :=
  let self :=
    if isPlannerOutOfDate self
    then with_planner self
           (setNavArr (getSizeInCellsX (costmap_ self))
                      (getSizeInCellsY (costmap_ self)) (planner_ self))
    else self in
  let path := Path.mk Header.empty [] in
  r <- makePlan self (PoseStamped.pose start) (PoseStamped.pose goal)
         (tolerance_ self) path ;;
  (* a false flag is only logged *)
  Ret (snd (fst r), snd r).

End EntryPoints.

(** The one-argument overload of [validPointPotential]: the member
    [tolerance_] is the tolerance. *)
Definition validPointPotential_default (self : NavfnPlanner)
    (world_point : Point.t) (fuel : nat) : comp bool :=
  validPointPotential self world_point (tolerance_ self) fuel.

(** What a caller of [makePlan] or [getPlanFromPotential] sees of the
    result: the flag and the plan, without the planner's state. *)
Definition plan_of (r : comp (bool * Path.t * NavfnPlanner)) : comp (bool * Path.t) :=
  x <- r ;; Ret (fst x).

(** The world waypoint of one point of the solver's path. *)
Definition path_waypoint (cm : Costmap2D) (xy : float * float) : PoseStamped.t :=
  waypoint (fst (mapToWorld cm (fst xy) (snd xy)))
           (snd (mapToWorld cm (fst xy) (snd xy))).

(** ** The goal-tolerance search that makePlan keeps in a comment *)

Module Search.
Record t : Type := mk {
  p : Pose.t;
  found_legal : bool;
  best_sdist : float;
  best_pose : Pose.t
}.
Definition set_p (s : t) (q : Pose.t) : t :=
  mk q (found_legal s) (best_sdist s) (best_pose s).
End Search.

Definition pose_set_x (q : Pose.t) (v : float) : Pose.t :=
  Pose.mk (Point.set_x (Pose.position q) v) (Pose.orientation q).

Definition pose_set_y (q : Pose.t) (v : float) : Pose.t :=
  Pose.mk (Point.set_y (Pose.position q) v) (Pose.orientation q).

(** A default-constructed [geometry_msgs::msg::Pose]. *)
Definition default_pose : Pose.t :=
  Pose.mk (Point.mk 0 0 0) (Quaternion.mk 0 0 0 1).

Section OriginalSearch.

Variable self : NavfnPlanner.
Variable goal : Pose.t.
Variable tolerance : float.

Let resolution : float := getResolution (costmap_ self).

(** The inner [while (p.position.x <= goal.position.x + tolerance)] loop of
    the block that [makePlan] comments out ("temporarily comment out the
    original planner"). *)
Fixpoint search_x (fuel : nat) (s : Search.t) : comp Search.t :=
  match fuel with
  | O => OutOfFuel
  | S fuel' =>
      if Point.x (Pose.position (Search.p s))
         <=? Point.x (Pose.position goal) + tolerance then
        potential <- getPointPotential self (Pose.position (Search.p s)) ;;
        let sdist := squared_distance (Search.p s) goal in
        let s :=
          if (potential <? POT_HIGH) && (sdist <? Search.best_sdist s)
          then Search.mk (Search.p s) true sdist (Search.p s)
          else s in
        search_x fuel'
          (Search.set_p s
             (pose_set_x (Search.p s)
                (Point.x (Pose.position (Search.p s)) + resolution)))
      else Ret s
  end.

(** The outer [while (p.position.y <= goal.position.y + tolerance)] loop of
    the same block. *)
Fixpoint search_y (fuel_x fuel : nat) (s : Search.t) : comp Search.t :=
  match fuel with
  | O => OutOfFuel
  | S fuel' =>
      if Point.y (Pose.position (Search.p s))
         <=? Point.y (Pose.position goal) + tolerance then
        s <- search_x fuel_x
               (Search.set_p s
                  (pose_set_x (Search.p s)
                     (Point.x (Pose.position goal) - tolerance))) ;;
        search_y fuel_x fuel'
          (Search.set_p s
             (pose_set_y (Search.p s)
                (Point.y (Pose.position (Search.p s)) + resolution)))
      else Ret s
  end.

(** The commented-out search, up to the choice of [best_pose]:
    [(found_legal, best_pose)]. *)
Definition original_goal_search (fuel : nat) : comp (bool * Pose.t) :=
  let p := pose_set_y goal (Point.y (Pose.position goal) - tolerance) in
  s <- search_y fuel fuel (Search.mk p false DBL_MAX default_pose) ;;
  Ret (Search.found_legal s, Search.best_pose s).

End OriginalSearch.

(** ** Worked examples *)

(** A solver for the examples: propagation installs the potential field
    [field]; the seed and the source are stored and the path is extracted
    as the spec has it. *)
Definition field_solver (field : list float) : NavFnSolver := {|
  setNavArr := fun nx' ny' pl =>
    mkNavFn nx' ny' (potarr pl) (getPathX pl) (getPathY pl) (getPathLen pl)
      (seed pl) (source pl);
  setCostmap := fun _ _ _ pl => pl;
  setStart := PathExtractor.setStart;
  setGoal := PathExtractor.setGoal;
  calcNavFnAstar := fun pl =>
    (true, mkNavFn (nx pl) (ny pl) field (getPathX pl) (getPathY pl)
             (getPathLen pl) (seed pl) (source pl));
  calcNavFnDijkstra := fun _ pl =>
    (true, mkNavFn (nx pl) (ny pl) field (getPathX pl) (getPathY pl)
             (getPathLen pl) (seed pl) (source pl));
  calcPath := PathExtractor.calcPath
|}.

(** A solver whose [calcPath] always finds the path [xs], [ys]. *)
Definition path_solver (xs ys : list float) : NavFnSolver := {|
  setNavArr := fun nx' ny' pl =>
    mkNavFn nx' ny' (potarr pl) (getPathX pl) (getPathY pl) (getPathLen pl)
      (seed pl) (source pl);
  setCostmap := fun _ _ _ pl => pl;
  setStart := fun _ pl => pl;
  setGoal := fun _ pl => pl;
  calcNavFnAstar := fun pl => (true, pl);
  calcNavFnDijkstra := fun _ pl => (true, pl);
  calcPath := fun _ pl =>
    (Z.of_nat (List.length xs),
     mkNavFn (nx pl) (ny pl) (potarr pl) xs ys (Z.of_nat (List.length xs))
       (seed pl) (source pl))
|}.

(** A [width] x [height] grid of free cells. *)
Definition free_grid (width height : nat) (resolution origin_x origin_y : float)
  : Costmap2D :=
  mkCostmap2D (Z.of_nat width) (Z.of_nat height) resolution origin_x origin_y
    (repeat FREE_SPACE (width * height)).

(** A [width] x [height] grid with resolution 1 and origin (0,0). *)
Definition unit_grid (width height : nat) (costs : list Z) : Costmap2D :=
  mkCostmap2D (Z.of_nat width) (Z.of_nat height) 1 0 0 costs.

Definition free_unit_grid (width height : nat) : Costmap2D :=
  free_grid width height 1 0 0.

(** A planner on the grid [cm] whose solver holds [field]; both the seed and
    the source are cell (0,0). *)
Definition planner_on (cm : Costmap2D) (field : list float) : NavfnPlanner :=
  mkNavfnPlanner cm
    (mkNavFn (getSizeInCellsX cm) (getSizeInCellsY cm) field [] [] 0
       (0, 0)%Z (0, 0)%Z)
    "map"%string 0 false true 0%Z.

Definition pose_at (wx wy : float) : Pose.t :=
  Pose.mk (Point.mk wx wy 0) (Quaternion.mk 0 0 0 1).

Definition empty_path : Path.t := Path.mk Header.empty [].

(** A 3 x 3 grid whose cell (2,2) is lethal, and a potential field for it:
    potentials grow with the distance from the robot's cell (0,0), the
    lethal cell is unreached. *)
Definition grid_goal_lethal : Costmap2D :=
  unit_grid 3 3
    [FREE_SPACE; FREE_SPACE; FREE_SPACE;
     FREE_SPACE; FREE_SPACE; FREE_SPACE;
     FREE_SPACE; FREE_SPACE; LETHAL_OBSTACLE].

Definition field_goal_blocked : list float :=
  [0; 1; 2;
   1; 2; 3;
   2; 3; POT_HIGH].

(** A 3 x 3 grid whose robot cell (0,0) is walled in by lethal cells, and a
    potential field for it: only the robot's own cell is reached. *)
Definition grid_walled_in : Costmap2D :=
  unit_grid 3 3
    [FREE_SPACE; LETHAL_OBSTACLE; FREE_SPACE;
     LETHAL_OBSTACLE; LETHAL_OBSTACLE; FREE_SPACE;
     FREE_SPACE; FREE_SPACE; FREE_SPACE].

Definition field_walled_in : list float :=
  [0; POT_HIGH; POT_HIGH;
   POT_HIGH; POT_HIGH; POT_HIGH;
   POT_HIGH; POT_HIGH; POT_HIGH].

(** A 3 x 3 grid whose cell (0,0), where the robot stands, is marked
    lethal. *)
Definition grid_start_lethal : Costmap2D :=
  unit_grid 3 3
    [LETHAL_OBSTACLE; FREE_SPACE; FREE_SPACE;
     FREE_SPACE; FREE_SPACE; FREE_SPACE;
     FREE_SPACE; FREE_SPACE; FREE_SPACE].

(** A potential field on the 3 x 3 grid that descends to cell (0,0) along
    the diagonal. *)
Definition field_open : list float :=
  [0; 1; 2;
   1; 1.5; 2.5;
   2; 2.5; 3].

(** A potential field on the 3 x 3 grid with a plateau: from cell (2,2) no
    neighbour is strictly lower. *)
Definition field_plateau : list float :=
  [0; 1; 2;
   1; 5; 5;
   2; 5; 5].

(** An 8 x 8 grid of 5 cm cells. *)
Definition grid_5cm : Costmap2D := free_grid 8 8 0.05 0 0.


(** ** Vocabulary of the statements *)

(** The cell coordinate the source computes for one axis:
    [round ((w - origin) / resolution)], difference and quotient being
    doubles; [None] when the quotient is a NaN or an infinity. *)
Definition cell_of (w origin resolution : float) : option Z :=
  option_map round_half_away (double_value ((w - origin) / resolution)).

(** The conversion of a rounded index from [int] to [unsigned int] cannot
    wrap a negative index into the grid: the grid has at most 2^31 cells a
    side, or the resolution is positive (the index of a point not below the
    origin is then not negative). *)
Definition no_wrap_around (cm : Costmap2D) : Prop :=
  ((getSizeInCellsX cm <= 2 ^ 31)%Z /\ (getSizeInCellsY cm <= 2 ^ 31)%Z)
  \/ (0 <? getResolution cm) = true.

(** The quotients that [std::round] sends to the cell index [m >= 0]: the
    half-open interval of length one centred on [m], so that a halfway
    quotient goes to the higher index; for [m = 0] the interval is open at
    -1/2, a quotient below zero being rounded away from zero. *)
Definition rounds_to (q : Q) (m : Z) : Prop :=
  if (m =? 0)%Z then (- (1 # 2) < q /\ q < 1 # 2)%Q
  else (inject_Z m - (1 # 2) <= q /\ q < inject_Z m + (1 # 2))%Q.

(** The value a loop variable has after [i] increments by [step]. *)
Fixpoint sweep (p step : float) (i : nat) : float :=
  match i with
  | O => p
  | S i' => sweep (p + step) step i'
  end.

(** A loop [for (v = lo; v <= hi; v += step)] makes exactly [k] rounds: the
    variable passes the test [k] times and fails it (exceeds [hi], or is a
    NaN) the next time. *)
Definition leaves_after (lo step hi : float) (k : nat) : Prop :=
  (forall i : nat, (i < k)%nat -> (sweep lo step i <=? hi) = true)
  /\ (sweep lo step k <=? hi) = false.

(** A candidate the scan accepts: its potential is read and lies strictly
    below [POT_HIGH]. *)
Definition reachable_at (self : NavfnPlanner) (q : Point.t) : Prop :=
  exists v : float, getPointPotential self q = Ret v /\ (v <? POT_HIGH) = true.

(** The values met on one axis of the round trip of a coordinate [w]
    through the cell index [m]: of the coordinate, the origin and the
    resolution, then of the four double results on the way, the difference
    [w - origin] and the quotient [(w - origin) / resolution] of [worldToMap],
    the product [m * resolution] and the sum [origin + m * resolution] of
    [mapToWorld]; all finite. *)
Definition axis_values (w origin resolution : float) (m : Z)
    (vw vo vr vd vq vt vb : Q) : Prop :=
  double_value w = Some vw /\ double_value origin = Some vo
  /\ double_value resolution = Some vr
  /\ double_value (w - origin) = Some vd
  /\ double_value ((w - origin) / resolution) = Some vq
  /\ double_value (double_of_Z m * resolution) = Some vt
  /\ double_value (origin + double_of_Z m * resolution) = Some vb.

(** The rounding errors of these four double operations, each the distance
    of the double result from the exact result on the same operands; the
    error of the quotient counts in units of the resolution. *)
Definition rounding_error (m : Z) (vw vo vr vd vq vt vb : Q) : Q :=
  (Qabs (vd - (vw - vo)) + Qabs (vq - vd / vr) * vr
   + Qabs (vt - inject_Z m * vr) + Qabs (vb - (vo + vt)))%Q.

(** *** Rounding to binary64, in exact terms

    The vocabulary in which the results of the double operations are
    characterised: brackets of a rational between two neighbouring
    multiples of a power of two, the magnitude of a rational, and the
    nearest multiple with ties to the even one. *)

Section RoundingVocabulary.
Local Open Scope Q_scope.

(** [y] lies in the unit interval that starts at the integer [m], at the
    place the location [l] tells: at [m], below, at or above its middle. *)
Definition loc_ok (y : Q) (m : Z) (l : location) : Prop :=
  match l with
  | loc_Exact => y == inject_Z m
  | loc_Inexact Lt => inject_Z m < y /\ y < inject_Z m + (1 # 2)
  | loc_Inexact Eq => y == inject_Z m + (1 # 2)
  | loc_Inexact Gt => inject_Z m + (1 # 2) < y /\ y < inject_Z m + 1
  end.

(** The same for a rational [x] counted in units of [2^e], the integer and
    the location being given by a shift record. *)
Definition bracketed (x : Q) (e : Z) (mrs : shr_record) : Prop :=
  (0 <= shr_m mrs)%Z
  /\ loc_ok (x * pow2 (- e)) (shr_m mrs) (loc_of_shr_record mrs).

(** [n] is an integer nearest to [y], the even one of the two when [y] is
    halfway. *)
Definition nearest_even (y : Q) (n : Z) : Prop :=
  (inject_Z n - (1 # 2) <= y /\ y <= inject_Z n + (1 # 2))
  /\ (y == inject_Z n - (1 # 2) \/ y == inject_Z n + (1 # 2) ->
      Z.even n = true).

(** [2^(D-1) <= x < 2^D]. *)
Definition mag_is (x : Q) (D : Z) : Prop := pow2 (D - 1) <= x /\ x < pow2 D.

(** [v] is the binary64 rounding of the positive rational [x], overflow
    apart: the multiple of the unit in the last place of [x]'s binade that
    is nearest to [x], ties to even. *)
Definition rounds_pos (x v : Q) : Prop :=
  exists D n,
    mag_is x D
    /\ nearest_even (x * pow2 (- fexp prec emax D)) n
    /\ v == inject_Z n * pow2 (fexp prec emax D).

(** The same for every rational: zero stays, a negative number rounds as
    its opposite does. *)
Definition rounds (x v : Q) : Prop :=
  (x == 0 /\ v == 0)
  \/ (0 < x /\ rounds_pos x v)
  \/ (x < 0 /\ rounds_pos (- x) (- v)).

End RoundingVocabulary.

(** The number of interpolated points [makePlan] computes from the two
    positions and the resolution: [sqrt (dx^2 + dy^2) / resolution] in
    doubles, truncated. *)
Definition point_count (cm : Costmap2D) (start goal : Pose.t) : comp Z :=
  let dx := Point.x (Pose.position goal) - Point.x (Pose.position start) in
  let dy := Point.y (Pose.position goal) - Point.y (Pose.position start) in
  static_cast_size_t (sqrt (dx * dx + dy * dy) / getResolution cm).

(** The interpolated waypoints of [makePlan] for the point count [n]:
    [start + k * ((goal - start) / n)] for k = 0 .. n - 1, in doubles, each
    with z = 0 and the identity orientation. *)
Definition straight_line (start goal : Pose.t) (n : Z) : list PoseStamped.t :=
  let dx := Point.x (Pose.position goal) - Point.x (Pose.position start) in
  let dy := Point.y (Pose.position goal) - Point.y (Pose.position start) in
  map (fun k : nat =>
         waypoint
           (Point.x (Pose.position start) + double_of_Z (Z.of_nat k) * (dx / double_of_Z n))
           (Point.y (Pose.position start) + double_of_Z (Z.of_nat k) * (dy / double_of_Z n)))
      (seq 0 (Z.to_nat n)).

(** A waypoint lies at the world position [xy]. *)
Definition at_position (ps : PoseStamped.t) (xy : float * float) : Prop :=
  Point.x (Pose.position (PoseStamped.pose ps)) = fst xy
  /\ Point.y (Pose.position (PoseStamped.pose ps)) = snd xy.

(** The cell the gradient descent stands on after [k] steps from [c];
    [None] once a plateau was met. *)
Fixpoint walk (pl : NavFn) (k : nat) (c : Z * Z) : option (Z * Z) :=
  match k with
  | O => Some c
  | S k' =>
      match PathExtractor.step pl c with
      | Some c' => walk pl k' c'
      | None => None
      end
  end.

(** * Properties *)

(** ** Comparisons of doubles *)

Lemma SFcompare_antisym (a b : spec_float) :
  SFcompare b a = option_map CompOpp (SFcompare a b).
Proof.
  destruct a as [[ | ] | [ | ] | | sa ma ea], b as [[ | ] | [ | ] | | sb mb eb];
    try reflexivity; try (destruct sa; reflexivity);
    try (destruct sb; reflexivity).
  cbn [SFcompare option_map].
  rewrite (Z.compare_antisym ea eb).
  pose proof (Pos.compare_cont_antisym ma mb Eq) as Hm. cbn [CompOpp] in Hm.
  rewrite <- Hm.
  destruct sa, sb; try reflexivity;
    destruct (ea ?= eb)%Z; cbn [CompOpp]; reflexivity.
Qed.

Lemma SFcompare_refl (a : spec_float) :
  SFcompare a a = None \/ SFcompare a a = Some Eq.
Proof.
  destruct a as [sa | sa | | sa ma ea]; cbn [SFcompare].
  - now right.
  - right. destruct sa; reflexivity.
  - now left.
  - right. rewrite Z.compare_refl, Pos.compare_cont_refl.
    destruct sa; reflexivity.
Qed.

(** No double is less than itself. *)
Lemma ltb_irrefl (a : float) : (a <? a) = false.
Proof.
  rewrite ltb_spec. unfold SFltb.
  destruct (SFcompare_refl (Prim2SF a)) as [E | E]; now rewrite E.
Qed.

(** [a <= b] excludes [b < a]. *)
Lemma leb_not_ltb (a b : float) : (a <=? b) = true -> (b <? a) = false.
Proof.
  rewrite leb_spec, ltb_spec. unfold SFleb, SFltb.
  rewrite (SFcompare_antisym (Prim2SF a) (Prim2SF b)).
  destruct (SFcompare (Prim2SF a) (Prim2SF b)) as [[ | | ] | ];
    cbn [option_map CompOpp]; congruence.
Qed.

(** Subtracting zero changes no double. *)
Lemma sub_zero (a : float) : a - 0 = a.
Proof.
  apply Prim2SF_inj. rewrite sub_spec.
  change (Prim2SF 0) with (S754_zero false).
  destruct (Prim2SF a) as [[ | ] | [ | ] | | s m e]; reflexivity.
Qed.

(** ** Rounding of doubles

    What the double subtraction and division return, from the definitions
    of the binary64 operations: the exact result rounded to nearest, ties
    to even.  Rounding keeps the order, and so do subtracting a fixed double
    and dividing by a fixed positive double. *)

Section Rounding.
Local Open Scope Q_scope.

Lemma pow2_pos (e : Z) : 0 < pow2 e.
Proof. apply Qpower_0_lt. reflexivity. Qed.

Lemma pow2_add (a b : Z) : pow2 (a + b) == pow2 a * pow2 b.
Proof. apply Qpower_plus. intro H. discriminate H. Qed.

Lemma pow2_succ (e : Z) : pow2 (e + 1) == 2 * pow2 e.
Proof. rewrite pow2_add. change (pow2 1) with 2. ring. Qed.

Lemma pow2_le (a b : Z) : (a <= b)%Z -> pow2 a <= pow2 b.
Proof. intros H. apply Qpower_le_compat_l; [exact H | discriminate]. Qed.

Lemma pow2_lt (a b : Z) : (a < b)%Z -> pow2 a < pow2 b.
Proof. intros H. apply Qpower_lt_compat_l; [exact H | reflexivity]. Qed.

Lemma pow2_inject (k : Z) : (0 <= k)%Z -> inject_Z (2 ^ k) == pow2 k.
Proof. intros H. apply Zpower_Qpower. exact H. Qed.

Lemma pow2_cancel (e : Z) : pow2 (- e) * pow2 e == 1.
Proof. rewrite <- pow2_add. replace (- e + e)%Z with 0%Z by lia. reflexivity. Qed.

Lemma pow2_shift (x : Q) (a b : Z) :
  x * pow2 a * pow2 b == x * pow2 (a + b).
Proof. rewrite pow2_add. ring. Qed.

Lemma scale_lt (x y : Q) (e : Z) : x < y -> x * pow2 e < y * pow2 e.
Proof. intros H. apply Qmult_lt_compat_r; [apply pow2_pos | exact H]. Qed.

Lemma scale_le (x y : Q) (e : Z) : x <= y -> x * pow2 e <= y * pow2 e.
Proof.
  intros H. apply Qmult_le_compat_r; [exact H | apply Qlt_le_weak, pow2_pos].
Qed.

Lemma inject_Z_succ (m : Z) : inject_Z (m + 1) == inject_Z m + 1.
Proof. rewrite inject_Z_plus. reflexivity. Qed.

Lemma inject_Z_double (p : positive) :
  inject_Z (Z.pos p~0) == 2 * inject_Z (Z.pos p).
Proof.
  change (Z.pos p~0) with (2 * Z.pos p)%Z. rewrite inject_Z_mult. reflexivity.
Qed.

Lemma inject_Z_double_succ (p : positive) :
  inject_Z (Z.pos p~1) == 2 * inject_Z (Z.pos p) + 1.
Proof.
  change (Z.pos p~1) with (2 * Z.pos p + 1)%Z.
  rewrite inject_Z_plus, inject_Z_mult. reflexivity.
Qed.

(** *** Brackets under right shifts *)

Lemma loc_ok_ext (y y' : Q) (m : Z) (l : location) :
  y == y' -> loc_ok y m l -> loc_ok y' m l.
Proof.
  intros E. destruct l as [ | [ | | ]]; simpl; rewrite E; trivial.
Qed.

Lemma shr_1_halves (y : Q) (mrs : shr_record) :
  (0 <= shr_m mrs)%Z ->
  loc_ok y (shr_m mrs) (loc_of_shr_record mrs) ->
  (0 <= shr_m (shr_1 mrs))%Z
  /\ loc_ok (y * (1 # 2)) (shr_m (shr_1 mrs)) (loc_of_shr_record (shr_1 mrs)).
Proof.
  destruct mrs as [m r s]. simpl shr_m.
  intros Hm H.
  destruct m as [ | [p | p | ] | p]; try lia;
    destruct r, s; simpl in H |- *;
    rewrite ?inject_Z_double, ?inject_Z_double_succ in H;
    (split; [lia | ]);
    change (inject_Z 0) with 0 in *; change (inject_Z 1) with 1 in *;
    try lra; try (split; lra).
Qed.

Lemma shr_1_bracketed (x : Q) (e : Z) (mrs : shr_record) :
  bracketed x e mrs -> bracketed x (e + 1) (shr_1 mrs).
Proof.
  intros [Hm H]. destruct (shr_1_halves _ _ Hm H) as [Hm' H'].
  split; [exact Hm' | ].
  apply (loc_ok_ext (x * pow2 (- e) * (1 # 2))); [ | exact H'].
  replace (- (e + 1))%Z with (- e + -1)%Z by lia.
  rewrite pow2_add. change (pow2 (-1)) with (1 # 2). ring.
Qed.

Lemma iter_pos_bracketed (p : positive) :
  forall (x : Q) (e : Z) (mrs : shr_record),
    bracketed x e mrs -> bracketed x (e + Z.pos p) (iter_pos shr_1 p mrs).
Proof.
  induction p as [p IH | p IH | ]; intros x e mrs H; simpl.
  - replace (e + Z.pos p~1)%Z with (e + 1 + Z.pos p + Z.pos p)%Z by lia.
    apply IH, IH, shr_1_bracketed, H.
  - replace (e + Z.pos p~0)%Z with (e + Z.pos p + Z.pos p)%Z by lia.
    apply IH, IH, H.
  - apply shr_1_bracketed, H.
Qed.

Lemma shr_record_of_loc_inv (m : Z) (l : location) :
  shr_m (shr_record_of_loc m l) = m
  /\ loc_of_shr_record (shr_record_of_loc m l) = l.
Proof. destruct l as [ | [ | | ]]; split; reflexivity. Qed.

Lemma shr_fexp_bracketed (x : Q) (m e : Z) (l : location)
      (mrs : shr_record) (e' : Z) :
  (0 <= m)%Z ->
  loc_ok (x * pow2 (- e)) m l ->
  shr_fexp prec emax m e l = (mrs, e') ->
  e' = Z.max e (fexp prec emax (Zdigits2 m + e)) /\ bracketed x e' mrs.
Proof.
  intros Hm H E. unfold shr_fexp, shr in E.
  assert (B : bracketed x e (shr_record_of_loc m l)).
  { destruct (shr_record_of_loc_inv m l) as [E1 E2].
    split; rewrite ?E1, ?E2; assumption. }
  destruct (fexp prec emax (Zdigits2 m + e) - e)%Z as [ | p | p] eqn:En;
    injection E as <- <-.
  - split; [lia | exact B].
  - split; [lia | ]. apply iter_pos_bracketed, B.
  - split; [lia | exact B].
Qed.

(** *** Rounding to nearest, ties to even *)

Lemma nearest_even_ext (y y' : Q) (n : Z) :
  y == y' -> nearest_even y n -> nearest_even y' n.
Proof. intros E. unfold nearest_even. rewrite E. trivial. Qed.

Lemma round_nearest_even_spec (y : Q) (m : Z) (l : location) :
  (0 <= m)%Z -> loc_ok y m l ->
  (0 <= round_nearest_even m l)%Z
  /\ nearest_even y (round_nearest_even m l).
Proof.
  intros Hm H. unfold nearest_even.
  destruct l as [ | [ | | ]]; simpl in H |- *.
  - split; [exact Hm | ]. split; [lra | ]. intros [E | E]; lra.
  - destruct (Z.even m) eqn:Ev.
    + split; [exact Hm | ]. split; [lra | ]. intros _. exact Ev.
    + split; [lia | ]. rewrite inject_Z_succ. split; [lra | ]. intros _.
      replace (m + 1)%Z with (Z.succ m) by lia.
      rewrite Z.even_succ, <- Z.negb_even, Ev. reflexivity.
  - split; [exact Hm | ]. split; [lra | ]. intros [E | E]; lra.
  - split; [lia | ]. rewrite inject_Z_succ. split; [lra | ].
    intros [E | E]; lra.
Qed.

Lemma nearest_even_le_int (y : Q) (n k : Z) :
  y <= inject_Z k -> nearest_even y n -> (n <= k)%Z.
Proof.
  intros Hy [[H1 _] _].
  destruct (Z_le_gt_dec n k) as [ | Hgt]; [assumption | exfalso].
  assert (Hq : inject_Z (k + 1) <= inject_Z n) by (rewrite <- Zle_Qle; lia).
  rewrite inject_Z_succ in Hq. lra.
Qed.

Lemma nearest_even_ge_int (y : Q) (n k : Z) :
  inject_Z k <= y -> nearest_even y n -> (k <= n)%Z.
Proof.
  intros Hy [[_ H2] _].
  destruct (Z_le_gt_dec k n) as [ | Hgt]; [assumption | exfalso].
  assert (Hq : inject_Z (n + 1) <= inject_Z k) by (rewrite <- Zle_Qle; lia).
  rewrite inject_Z_succ in Hq. lra.
Qed.

Lemma nearest_even_lt_int (y : Q) (n k : Z) :
  y < inject_Z k + (1 # 2) -> nearest_even y n -> (n <= k)%Z.
Proof.
  intros Hy [[H1 _] _].
  destruct (Z_le_gt_dec n k) as [ | Hgt]; [assumption | exfalso].
  assert (Hq : inject_Z (k + 1) <= inject_Z n) by (rewrite <- Zle_Qle; lia).
  rewrite inject_Z_succ in Hq. lra.
Qed.

Lemma nearest_even_monotone (y y' : Q) (n n' : Z) :
  y <= y' -> nearest_even y n -> nearest_even y' n' -> (n <= n')%Z.
Proof.
  intros Hy [[H1 H2] Ht] [[H1' H2'] Ht'].
  destruct (Z_le_gt_dec n n') as [ | Hgt]; [assumption | exfalso].
  assert (Hq : inject_Z (n' + 1) <= inject_Z n) by (rewrite <- Zle_Qle; lia).
  rewrite inject_Z_succ in Hq.
  assert (E1 : y == inject_Z n - (1 # 2)) by lra.
  assert (E2 : y' == inject_Z n' + (1 # 2)) by lra.
  assert (E3 : inject_Z n == inject_Z (n' + 1))
    by (rewrite inject_Z_succ; lra).
  assert (E4 : n = Z.succ n')     by (apply (proj1 (inject_Z_injective _ _)) in E3; lia).
  specialize (Ht (or_introl E1)). specialize (Ht' (or_intror E2)).
  rewrite E4, Z.even_succ, <- Z.negb_even, Ht' in Ht. discriminate.
Qed.

(** *** Binary digits and magnitudes *)

Lemma fexp_spec (D : Z) : fexp prec emax D = Z.max (D - 53) (-1074).
Proof. reflexivity. Qed.

Lemma digits2_pos_bounds (p : positive) :
  (2 ^ (Z.pos (digits2_pos p) - 1) <= Z.pos p < 2 ^ Z.pos (digits2_pos p))%Z.
Proof.
  induction p as [p IH | p IH | ]; simpl digits2_pos.
  - rewrite Pos2Z.inj_succ.
    replace (Z.succ (Z.pos (digits2_pos p)) - 1)%Z
      with (Z.succ (Z.pos (digits2_pos p) - 1)) by lia.
    rewrite !Z.pow_succ_r by lia. lia.
  - rewrite Pos2Z.inj_succ.
    replace (Z.succ (Z.pos (digits2_pos p)) - 1)%Z
      with (Z.succ (Z.pos (digits2_pos p) - 1)) by lia.
    rewrite !Z.pow_succ_r by lia. lia.
  - simpl. lia.
Qed.

Lemma Zdigits2_nonneg (n : Z) : (0 <= Zdigits2 n)%Z.
Proof. destruct n; simpl; lia. Qed.

Lemma Zdigits2_le (n k : Z) :
  (0 <= k)%Z -> (0 <= n < 2 ^ k)%Z -> (Zdigits2 n <= k)%Z.
Proof.
  intros Hk [H0 Hn]. destruct n as [ | p | p]; simpl; try lia.
  destruct (digits2_pos_bounds p) as [Hlo _].
  destruct (Z_le_gt_dec (Z.pos (digits2_pos p)) k) as [ | Hgt]; [assumption | ].
  exfalso.
  assert (2 ^ k <= 2 ^ (Z.pos (digits2_pos p) - 1))%Z
    by (apply Z.pow_le_mono_r; lia).
  lia.
Qed.

Lemma mag_is_ext (x x' : Q) (D : Z) : x == x' -> mag_is x D -> mag_is x' D.
Proof. intros E. unfold mag_is. rewrite E. trivial. Qed.

Lemma mag_is_monotone (x x' : Q) (D D' : Z) :
  x <= x' -> mag_is x D -> mag_is x' D' -> (D <= D')%Z.
Proof.
  intros Hx [Hlo _] [_ Hhi].
  destruct (Z_le_gt_dec D D') as [ | Hgt]; [assumption | exfalso].
  assert (pow2 D' <= pow2 (D - 1)) by (apply pow2_le; lia).
  lra.
Qed.

Lemma mag_is_unique (x : Q) (D D' : Z) : mag_is x D -> mag_is x D' -> D = D'.
Proof.
  intros H H'.
  assert (D <= D')%Z by (apply (mag_is_monotone x x); [lra | | ]; assumption).
  assert (D' <= D)%Z by (apply (mag_is_monotone x x); [lra | | ]; assumption).
  lia.
Qed.

Lemma mag_is_pos (x : Q) (D : Z) : mag_is x D -> 0 < x.
Proof. intros [H _]. pose proof (pow2_pos (D - 1)). lra. Qed.

Lemma mag_of_digits (m : positive) (e : Z) :
  mag_is (inject_Z (Z.pos m) * pow2 e) (Z.pos (digits2_pos m) + e).
Proof.
  destruct (digits2_pos_bounds m) as [Hlo Hhi].
  rewrite Zle_Qle in Hlo. rewrite Zlt_Qlt in Hhi.
  rewrite pow2_inject in Hlo, Hhi by lia.
  split.
  - replace (Z.pos (digits2_pos m) + e - 1)%Z
      with (Z.pos (digits2_pos m) - 1 + e)%Z by lia.
    rewrite pow2_add. apply scale_le, Hlo.
  - rewrite pow2_add. apply scale_lt, Hhi.
Qed.

(** *** The rounding step of every operation *)

Lemma shr_fexp_exact (n c D : Z) (mrs : shr_record) (e : Z) :
  c = fexp prec emax D ->
  (0 <= n)%Z ->
  (D - c < 0 -> n = 0)%Z ->
  (0 <= D - c -> n <= 2 ^ (D - c))%Z ->
  shr_fexp prec emax n c loc_Exact = (mrs, e) ->
  (0 <= shr_m mrs)%Z
  /\ inject_Z (shr_m mrs) * pow2 e == inject_Z n * pow2 c.
Proof.
  intros Hc Hn Hsmall Hbig E. rewrite fexp_spec in Hc.
  unfold shr_fexp, shr in E. rewrite fexp_spec in E. simpl shr_record_of_loc in E.
  assert (Hd : (Z.max (Zdigits2 n + c - 53) (-1074) - c <= 1)%Z
               /\ ((Z.max (Zdigits2 n + c - 53) (-1074) - c = 1)%Z ->
                   exists p, n = Z.pos p~0)).
  { destruct (Z_lt_le_dec (D - c) 0) as [Hneg | Hpos].
    - rewrite (Hsmall Hneg). simpl Zdigits2. split; [lia | intros; lia].
    - specialize (Hbig Hpos).
      destruct (Z.eq_dec n (2 ^ (D - c))) as [En | Hne].
      + assert (Hdig : (Zdigits2 n <= D - c + 1)%Z).
        { apply Zdigits2_le; [lia | ]. rewrite En.
          split; [lia | ]. apply Z.pow_lt_mono_r; lia. }
        split; [lia | ]. intros Hone.
        assert (Hk : (1 <= D - c)%Z).
        { destruct (Z.eq_dec (D - c) 0) as [E0 | ]; [ | lia].
          rewrite E0 in En. change (2 ^ 0)%Z with 1%Z in En. subst n.
          change (Zdigits2 1) with 1%Z in Hone. lia. }
        assert (Hp : (0 < 2 ^ (D - c - 1))%Z) by (apply Z.pow_pos_nonneg; lia).
        destruct (2 ^ (D - c - 1))%Z as [ | p | p] eqn:Ep; try lia.
        exists p. rewrite En.
        replace (D - c)%Z with (Z.succ (D - c - 1)) by lia.
        rewrite Z.pow_succ_r by lia. rewrite Ep. reflexivity.
      + assert (Hdig : (Zdigits2 n <= D - c)%Z)
          by (apply Zdigits2_le; lia).
        split; [lia | intros; lia]. }
  destruct Hd as [Hle Hone].
  destruct (Z.max (Zdigits2 n + c - 53) (-1074) - c)%Z as [ | p | p] eqn:En;
    injection E as <- <-; simpl shr_m.
  - split; [exact Hn | reflexivity].
  - assert (p = 1%positive) by lia. subst p.
    destruct (Hone eq_refl) as [q ->]. simpl.
    split; [lia | ].
    rewrite inject_Z_double, pow2_succ. ring.
  - split; [exact Hn | reflexivity].
Qed.

Lemma binary_round_aux_spec (sx : bool) (mx ex : Z) (lx : location)
      (x : Q) (D : Z) (v : Q) :
  (0 <= mx)%Z ->
  loc_ok (x * pow2 (- ex)) mx lx ->
  mag_is x D ->
  Z.max ex (fexp prec emax (Zdigits2 mx + ex)) = fexp prec emax D ->
  SFvalue (binary_round_aux prec emax sx mx ex lx) = Some v ->
  rounds_pos x (if sx then - v else v).
Proof.
  intros Hm Hl HD Hc Hv.
  unfold binary_round_aux in Hv.
  destruct (shr_fexp prec emax mx ex lx) as [mrs1 e1] eqn:E1.
  destruct (shr_fexp_bracketed x _ _ _ _ _ Hm Hl E1) as [Ee1 [Hm1 Hl1]].
  rewrite Hc in Ee1. subst e1.
  destruct (round_nearest_even_spec _ _ _ Hm1 Hl1) as [Hn Hne].
  set (n := round_nearest_even (shr_m mrs1) (loc_of_shr_record mrs1)) in *.
  set (c := fexp prec emax D) in *.
  destruct (shr_fexp prec emax n c loc_Exact) as [mrs2 e2] eqn:E2.
  assert (Hx : x * pow2 (- c) < pow2 (D - c)).
  { destruct HD as [_ Hhi]. replace (D - c)%Z with (D + - c)%Z by lia.
    rewrite pow2_add. apply scale_lt, Hhi. }
  assert (Hsmall : (D - c < 0 -> n = 0)%Z).
  { intros Hneg.
    assert (pow2 (D - c) <= pow2 (-1)) by (apply pow2_le; lia).
    change (pow2 (-1)) with (1 # 2) in *.
    assert (n <= 0)%Z
      by (apply (nearest_even_lt_int (x * pow2 (- c)));
          [change (inject_Z 0) with 0; lra | exact Hne]).
    lia. }
  assert (Hbig : (0 <= D - c -> n <= 2 ^ (D - c))%Z).
  { intros Hpos. apply (nearest_even_le_int (x * pow2 (- c))); [ | exact Hne].
    rewrite pow2_inject by exact Hpos. lra. }
  destruct (shr_fexp_exact n c D mrs2 e2 eq_refl Hn Hsmall Hbig E2)
    as [Hm2 Hval].
  exists D, n. split; [exact HD | ]. split; [exact Hne | ]. fold c.
  rewrite <- Hval.
  destruct (shr_m mrs2) as [ | m | m]; try lia.
  - simpl in Hv. assert (v = 0) by congruence. subst v.
    destruct sx; reflexivity.
  - destruct (e2 <=? emax - prec)%Z; simpl in Hv; [ | discriminate].
    injection Hv as Hv. destruct sx; rewrite <- Hv; ring.
Qed.

(** *** Rounding keeps the order *)

Lemma rounds_pos_ext (x x' v v' : Q) :
  x == x' -> v == v' -> rounds_pos x v -> rounds_pos x' v'.
Proof.
  intros Ex Ev (D & n & HD & Hn & Hv). exists D, n.
  split; [apply (mag_is_ext x); assumption | ].
  split.
  - apply (nearest_even_ext (x * pow2 (- fexp prec emax D))); [ | exact Hn].
    rewrite Ex. reflexivity.
  - rewrite <- Ev. exact Hv.
Qed.

Lemma rounds_pos_nonneg (x v : Q) : rounds_pos x v -> 0 <= v.
Proof.
  intros (D & n & HD & Hn & Hv).
  assert (Hx : 0 < x) by (apply (mag_is_pos x D), HD).
  assert (0 <= n)%Z.
  { apply (nearest_even_ge_int (x * pow2 (- fexp prec emax D))); [ | exact Hn].
    change (inject_Z 0) with 0.
    apply Qmult_le_0_compat; [lra | apply Qlt_le_weak, pow2_pos]. }
  rewrite Hv. apply Qmult_le_0_compat; [ | apply Qlt_le_weak, pow2_pos].
  change 0 with (inject_Z 0). rewrite <- Zle_Qle. assumption.
Qed.

Lemma rounds_pos_monotone (x x' v v' : Q) :
  x <= x' -> rounds_pos x v -> rounds_pos x' v' -> v <= v'.
Proof.
  intros Hx (D & n & HD & Hn & Hv) (D' & n' & HD' & Hn' & Hv').
  pose proof (mag_is_monotone x x' D D' Hx HD HD') as HDD.
  rewrite Hv, Hv'. rewrite !fexp_spec in *.
  set (c := Z.max (D - 53) (-1074)) in *.
  set (c' := Z.max (D' - 53) (-1074)) in *.
  destruct (Z.eq_dec c c') as [Ec | Hne].
  - rewrite <- Ec in *. apply scale_le. rewrite <- Zle_Qle.
    apply (nearest_even_monotone (x * pow2 (- c)) (x' * pow2 (- c)));
      [apply scale_le, Hx | assumption | assumption].
  - assert (Hcc : (c < c')%Z) by (subst c c'; lia).
    assert (Ec' : c' = (D' - 53)%Z) by (subst c c'; lia).
    assert (HD1 : (D <= D' - 1)%Z) by (subst c c'; lia).
    apply (Qle_trans _ (pow2 (D' - 1))).
    + assert (Hk : (0 <= D' - 1 - c)%Z) by lia.
      assert (Hle : (n <= 2 ^ (D' - 1 - c))%Z).
      { apply (nearest_even_le_int (x * pow2 (- c))); [ | exact Hn].
        rewrite pow2_inject by exact Hk.
        replace (D' - 1 - c)%Z with (D' - 1 + - c)%Z by lia.
        rewrite pow2_add. apply scale_le.
        destruct HD as [_ Hhi].
        assert (pow2 D <= pow2 (D' - 1)) by (apply pow2_le, HD1).
        lra. }
      rewrite Zle_Qle, pow2_inject in Hle by exact Hk.
      apply (scale_le _ _ c) in Hle.
      rewrite <- pow2_add in Hle.
      replace (D' - 1 - c + c)%Z with (D' - 1)%Z in Hle by lia.
      exact Hle.
    + assert (Hk : (0 <= D' - 1 - c')%Z) by lia.
      assert (Hge : (2 ^ (D' - 1 - c') <= n')%Z).
      { apply (nearest_even_ge_int (x' * pow2 (- c'))); [ | exact Hn'].
        rewrite pow2_inject by exact Hk.
        replace (D' - 1 - c')%Z with (D' - 1 + - c')%Z by lia.
        rewrite pow2_add. apply scale_le. apply HD'. }
      rewrite Zle_Qle, pow2_inject in Hge by exact Hk.
      apply (scale_le _ _ c') in Hge.
      rewrite <- pow2_add in Hge.
      replace (D' - 1 - c' + c')%Z with (D' - 1)%Z in Hge by lia.
      exact Hge.
Qed.

Lemma rounds_ext (x x' v v' : Q) :
  x == x' -> v == v' -> rounds x v -> rounds x' v'.
Proof.
  intros Ex Ev [[H1 H2] | [[H1 H2] | [H1 H2]]].
  - left. split; [rewrite <- Ex | rewrite <- Ev]; assumption.
  - right; left. split; [rewrite <- Ex; exact H1 | ].
    apply (rounds_pos_ext x _ v); assumption.
  - right; right. split; [rewrite <- Ex; exact H1 | ].
    apply (rounds_pos_ext (- x) _ (- v));
      [rewrite Ex | rewrite Ev | assumption]; reflexivity.
Qed.

Lemma rounds_sign (x v : Q) :
  rounds x v -> (0 <= x -> 0 <= v) /\ (x <= 0 -> v <= 0).
Proof.
  intros [[H1 H2] | [[H1 H2] | [H1 H2]]].
  - split; intros _; lra.
  - apply rounds_pos_nonneg in H2. split; intros; lra.
  - apply rounds_pos_nonneg in H2. split; intros; lra.
Qed.

Lemma rounds_monotone (x x' v v' : Q) :
  x <= x' -> rounds x v -> rounds x' v' -> v <= v'.
Proof.
  intros Hx H H'.
  destruct (rounds_sign _ _ H) as [Hp Hn].
  destruct (rounds_sign _ _ H') as [Hp' Hn'].
  destruct H as [[H1 H2] | [[H1 H2] | [H1 H2]]];
    destruct H' as [[H1' H2'] | [[H1' H2'] | [H1' H2']]];
    try lra;
    try (assert (0 <= v') by (apply Hp'; lra); assert (v <= 0) by (apply Hn; lra);
         lra).
  - apply (rounds_pos_monotone x x'); assumption.
  - assert (- v' <= - v)
      by (apply (rounds_pos_monotone (- x') (- x)); [lra | | ]; assumption).
    lra.
Qed.

(** *** What each operation computes *)

Lemma iter_xO_spec (m d : positive) :
  Z.pos (Pos.iter xO m d) = (Z.pos m * 2 ^ Z.pos d)%Z
  /\ digits2_pos (Pos.iter xO m d) = (digits2_pos m + d)%positive.
Proof.
  induction d as [ | d [IH1 IH2]] using Pos.peano_ind.
  - simpl. split; [lia | ]. rewrite Pos.add_1_r. reflexivity.
  - rewrite Pos.iter_succ. split.
    + rewrite Pos2Z.inj_xO, IH1, Pos2Z.inj_succ, Z.pow_succ_r by lia. lia.
    + simpl. rewrite IH2. lia.
Qed.

Lemma shl_align_spec (mx : positive) (ex ex' : Z) (mz : positive) (ez : Z) :
  shl_align mx ex ex' = (mz, ez) ->
  ez = Z.min ex ex'
  /\ inject_Z (Z.pos mz) * pow2 ez == inject_Z (Z.pos mx) * pow2 ex
  /\ (Z.pos (digits2_pos mz) + ez = Z.pos (digits2_pos mx) + ex)%Z.
Proof.
  unfold shl_align. intros E.
  destruct (ex' - ex)%Z as [ | d | d] eqn:Ed; injection E as <- <-.
  - split; [lia | ]. split; [reflexivity | lia].
  - split; [lia | ]. split; [reflexivity | lia].
  - destruct (iter_xO_spec mx d) as [E1 E2]. rewrite E1, E2.
    split; [lia | ]. split.
    + assert (Hp : pow2 ex == pow2 (Z.pos d) * pow2 ex').
      { rewrite <- pow2_add. replace (Z.pos d + ex')%Z with ex by lia.
        reflexivity. }
      rewrite inject_Z_mult, pow2_inject, Hp by lia. ring.
    + lia.
Qed.

Lemma binary_round_spec (sx : bool) (mx : positive) (ex : Z) (v : Q) :
  SFvalue (binary_round prec emax sx mx ex) = Some v ->
  rounds_pos (inject_Z (Z.pos mx) * pow2 ex) (if sx then - v else v).
Proof.
  unfold binary_round. intros Hv.
  destruct (shl_align mx ex (fexp prec emax (Z.pos (digits2_pos mx) + ex)))
    as [mz ez] eqn:E.
  destruct (shl_align_spec _ _ _ _ _ E) as (Ez & Eval & Edig).
  apply (binary_round_aux_spec sx (Z.pos mz) ez loc_Exact
           (inject_Z (Z.pos mx) * pow2 ex)
           (Z.pos (digits2_pos mx) + ex) v).
  - lia.
  - simpl. rewrite <- Eval, pow2_shift.
    replace (ez + - ez)%Z with 0%Z by lia. change (pow2 0) with 1. ring.
  - apply mag_of_digits.
  - simpl Zdigits2. rewrite Edig. lia.
  - exact Hv.
Qed.

Lemma binary_normalize_spec (m e : Z) (szero : bool) (v : Q) :
  SFvalue (binary_normalize prec emax m e szero) = Some v ->
  rounds (inject_Z m * pow2 e) v.
Proof.
  destruct m as [ | p | p]; simpl binary_normalize; intros Hv.
  - left. simpl in Hv. injection Hv as <-. split; [ring | reflexivity].
  - right; left. split.
    + apply (mag_is_pos _ _ (mag_of_digits p e)).
    + apply (binary_round_spec false), Hv.
  - right; right.
    assert (E : - (inject_Z (Z.neg p) * pow2 e) == inject_Z (Z.pos p) * pow2 e).
    { change (Z.neg p) with (- Z.pos p)%Z. rewrite inject_Z_opp. ring. }
    split.
    + pose proof (mag_is_pos _ _ (mag_of_digits p e)). lra.
    + apply (rounds_pos_ext (inject_Z (Z.pos p) * pow2 e) _ (- v));
        [symmetry; exact E | reflexivity | ].
      apply (binary_round_spec true), Hv.
Qed.

Lemma valid_rounds_to_itself (s : bool) (m : positive) (e : Z) :
  SpecFloat.valid_binary prec emax (S754_finite s m e) = true ->
  rounds_pos (inject_Z (Z.pos m) * pow2 e) (inject_Z (Z.pos m) * pow2 e).
Proof.
  simpl. unfold bounded, canonical_mantissa. intros H.
  apply andb_prop in H. destruct H as [H _]. apply Z.eqb_eq in H.
  exists (Z.pos (digits2_pos m) + e)%Z, (Z.pos m).
  split; [apply mag_of_digits | ]. rewrite H. split.
  - apply (nearest_even_ext (inject_Z (Z.pos m))).
    + rewrite pow2_shift. replace (e + - e)%Z with 0%Z by lia.
      change (pow2 0) with 1. ring.
    + split; [split; lra | intros [E | E]; lra].
  - reflexivity.
Qed.

Lemma finite_value_rounds (f : spec_float) (v : Q) :
  SpecFloat.valid_binary prec emax f = true -> SFvalue f = Some v -> rounds v v.
Proof.
  intros Hvalid Hv. destruct f as [s | s | | s m e]; try discriminate.
  - injection Hv as <-. left. split; reflexivity.
  - pose proof (valid_rounds_to_itself s m e Hvalid) as Hr.
    pose proof (mag_is_pos _ _ (mag_of_digits m e)) as Hpos.
    simpl in Hv. injection Hv as <-. destruct s.
    + right; right. split; [lra | ].
      apply (rounds_pos_ext _ _ _ _ (Qeq_sym _ _ (Qopp_opp _))
                            (Qeq_sym _ _ (Qopp_opp _))), Hr.
    + right; left. split; assumption.
Qed.

Lemma SFsub_finite_operands (a o : spec_float) (v : Q) :
  SFvalue (SFsub prec emax a o) = Some v ->
  exists va vo, SFvalue a = Some va /\ SFvalue o = Some vo.
Proof.
  destruct a as [sa | sa | | sa ma ea], o as [so | so | | so mo eo];
    simpl; try discriminate; try (destruct sa, so; discriminate);
    intros _; eexists; eexists; split; reflexivity.
Qed.

Lemma shl_align_min (m : positive) (e e' : Z) :
  (e' <= e)%Z ->
  inject_Z (Z.pos (fst (shl_align m e e'))) * pow2 e'
  == inject_Z (Z.pos m) * pow2 e.
Proof.
  intros Hle. destruct (shl_align m e e') as [mz ez] eqn:E.
  destruct (shl_align_spec _ _ _ _ _ E) as (Ez & Eval & _).
  simpl fst. rewrite <- Eval. replace ez with e' by lia. reflexivity.
Qed.

Lemma SFsub_spec (a o : spec_float) (va vo v : Q) :
  SpecFloat.valid_binary prec emax a = true ->
  SpecFloat.valid_binary prec emax o = true ->
  SFvalue a = Some va -> SFvalue o = Some vo ->
  SFvalue (SFsub prec emax a o) = Some v ->
  rounds (va - vo) v.
Proof.
  intros Ha Ho Hva Hvo Hv.
  destruct a as [sa | sa | | sa ma ea]; try discriminate;
    destruct o as [so | so | | so mo eo]; try discriminate.
  - simpl in Hva, Hvo. injection Hva as <-. injection Hvo as <-.
    left. split; [ring | ].
    destruct sa, so; simpl in Hv; injection Hv as <-; reflexivity.
  - simpl in Hva. injection Hva as <-.
    change (SFsub prec emax (S754_zero sa) (S754_finite so mo eo))
      with (S754_finite (negb so) mo eo) in Hv.
    assert (Hvalid : SpecFloat.valid_binary prec emax
                       (S754_finite (negb so) mo eo) = true) by exact Ho.
    apply (rounds_ext v _ v); [ | reflexivity
                               | apply (finite_value_rounds _ _ Hvalid Hv)].
    simpl in Hv, Hvo. injection Hv as <-. injection Hvo as <-.
    destruct so; simpl; ring.
  - simpl in Hvo. injection Hvo as <-.
    change (SFsub prec emax (S754_finite sa ma ea) (S754_zero so))
      with (S754_finite sa ma ea) in Hv.
    assert (v = va) by congruence. subst v.
    apply (rounds_ext va _ va); [ring | reflexivity | ].
    apply (finite_value_rounds _ _ Ha Hva).
  - cbn [SFsub] in Hv. apply binary_normalize_spec in Hv.
    apply (rounds_ext _ (va - vo) _ v) in Hv; [exact Hv | | reflexivity].
    simpl in Hva, Hvo. injection Hva as <-. injection Hvo as <-.
    pose proof (shl_align_min ma ea (Z.min ea eo) (Z.le_min_l _ _)) as E1.
    pose proof (shl_align_min mo eo (Z.min ea eo) (Z.le_min_r _ _)) as E2.
    unfold Z.sub at 1. rewrite inject_Z_plus, inject_Z_opp.
    destruct sa, so; unfold cond_Zopp; rewrite ?inject_Z_opp;
      rewrite <- E1, <- E2; ring.
Qed.

(** Division. *)

Lemma loc_ok_range (y : Q) (m : Z) (l : location) :
  loc_ok y m l -> inject_Z m <= y /\ y < inject_Z m + 1.
Proof. destruct l as [ | [ | | ]]; simpl; intros H; split; lra. Qed.

Lemma new_location_spec (m r : Z) :
  (0 <= r < m)%Z ->
  match new_location m r with
  | loc_Exact => r = 0%Z
  | loc_Inexact Lt => (0 < r /\ 2 * r < m)%Z
  | loc_Inexact Eq => (0 < r /\ 2 * r = m)%Z
  | loc_Inexact Gt => (0 < r /\ m < 2 * r)%Z
  end.
Proof.
  intros Hr. unfold new_location, new_location_even, new_location_odd.
  destruct (Z.even m) eqn:Ev; destruct (Z.eqb_spec r 0) as [E0 | Hne];
    try exact E0.
  - destruct (Z.compare_spec (2 * r) m); lia.
  - assert (Hodd : m <> (2 * r)%Z).
    { intros ->. rewrite Z.even_mul in Ev. discriminate. }
    destruct (Z.compare_spec (2 * r + 1) m); lia.
Qed.

Lemma ratio_location (y : Q) (m q r : Z) :
  (0 < m)%Z -> (0 <= r < m)%Z ->
  y * inject_Z m == inject_Z (m * q + r) ->
  loc_ok y q (new_location m r).
Proof.
  intros Hm Hr Hy.
  pose proof (new_location_spec m r Hr) as Hloc.
  rewrite inject_Z_plus, inject_Z_mult in Hy.
  assert (HM : 0 < inject_Z m)
    by (change 0 with (inject_Z 0); rewrite <- Zlt_Qlt; exact Hm).
  set (M := inject_Z m) in *. set (R := inject_Z r) in *.
  set (t := y - inject_Z q).
  assert (Ht : t * M == R) by (unfold t; lra).
  assert (Hlt : forall c : Q, R < c * M -> t < c).
  { intros c Hc. apply (Qmult_lt_r _ _ M HM). lra. }
  assert (Hgt : forall c : Q, c * M < R -> c < t).
  { intros c Hc. apply (Qmult_lt_r _ _ M HM). lra. }
  assert (Heq : forall c : Q, R == c * M -> t == c).
  { intros c Hc. apply (Qmult_inj_r _ _ M); [lra | lra]. }
  destruct (new_location m r) as [ | [ | | ]]; simpl.
  - assert (R == 0 * M) by (unfold R; rewrite Hloc; ring).
    pose proof (Heq 0 H). unfold t in *. lra.
  - destruct Hloc as [H1 H2].
    assert (R == (1 # 2) * M).
    { apply (f_equal inject_Z) in H2. rewrite inject_Z_mult in H2.
      fold R M in H2. change (inject_Z 2) with 2 in H2. rewrite <- H2. ring. }
    pose proof (Heq _ H). unfold t in *. lra.
  - destruct Hloc as [H1 H2].
    assert (0 * M < R)
      by (unfold R; rewrite Qmult_0_l; change 0 with (inject_Z 0);
          rewrite <- Zlt_Qlt; exact H1).
    assert (R < (1 # 2) * M).
    { rewrite Zlt_Qlt, inject_Z_mult in H2. fold R M in H2.
      change (inject_Z 2) with 2 in H2. lra. }
    pose proof (Hlt _ H0). pose proof (Hgt _ H). unfold t in *. split; lra.
  - destruct Hloc as [H1 H2].
    assert ((1 # 2) * M < R).
    { rewrite Zlt_Qlt, inject_Z_mult in H2. fold R M in H2.
      change (inject_Z 2) with 2 in H2. lra. }
    assert (R < 1 * M).
    { unfold R, M. rewrite Qmult_1_l, <- Zlt_Qlt. lia. }
    pose proof (Hlt _ H0). pose proof (Hgt _ H). unfold t in *. split; lra.
Qed.

Lemma quotient_mag (X Y : Q) (DX DY : Z) :
  mag_is X DX -> mag_is Y DY ->
  exists D, mag_is (X / Y) D /\ (DX - DY <= D <= DX - DY + 1)%Z.
Proof.
  intros [HX1 HX2] [HY1 HY2].
  assert (HY : 0 < Y) by (pose proof (pow2_pos (DY - 1)); lra).
  assert (E : X / Y * Y == X) by (field; lra).
  set (x := X / Y) in *.
  assert (Hlo : pow2 (DX - DY - 1) < x).
  { apply (Qmult_lt_r _ _ Y HY). rewrite E.
    apply (Qlt_le_trans _ (pow2 (DX - DY - 1) * pow2 DY)).
    - apply Qmult_lt_l; [apply pow2_pos | exact HY2].
    - rewrite <- pow2_add. replace (DX - DY - 1 + DY)%Z with (DX - 1)%Z by lia.
      exact HX1. }
  assert (Hhi : x < pow2 (DX - DY + 1)).
  { apply (Qmult_lt_r _ _ Y HY). rewrite E.
    apply (Qlt_le_trans _ (pow2 (DX - DY + 1) * pow2 (DY - 1))).
    - rewrite <- pow2_add. replace (DX - DY + 1 + (DY - 1))%Z with DX by lia.
      exact HX2.
    - apply Qmult_le_l; [apply pow2_pos | exact HY1]. }
  destruct (Qlt_le_dec x (pow2 (DX - DY))) as [Hlt | Hge].
  - exists (DX - DY)%Z. split; [ | lia]. split; [ | exact Hlt].
    apply Qlt_le_weak. exact Hlo.
  - exists (DX - DY + 1)%Z. split; [ | lia]. split; [ | exact Hhi].
    replace (DX - DY + 1 - 1)%Z with (DX - DY)%Z by lia. exact Hge.
Qed.

Lemma SFdiv_core_binary_spec (m1 m2 : positive) (e1 e2 : Z)
      (q e' : Z) (l : location) :
  SFdiv_core_binary prec emax (Z.pos m1) e1 (Z.pos m2) e2 = (q, e', l) ->
  let x := (inject_Z (Z.pos m1) * pow2 e1) / (inject_Z (Z.pos m2) * pow2 e2) in
  (0 <= q)%Z
  /\ loc_ok (x * pow2 (- e')) q l
  /\ exists D, mag_is x D
               /\ Z.max e' (fexp prec emax (Zdigits2 q + e')) = fexp prec emax D.
Proof.
  intros E x.
  pose proof (mag_of_digits m1 e1) as HX. pose proof (mag_of_digits m2 e2) as HY.
  destruct (quotient_mag _ _ _ _ HX HY) as (D & HD & HDr). fold x in HD.
  unfold SFdiv_core_binary in E. rewrite !fexp_spec in E. simpl Zdigits2 in E.
  set (d1 := Z.pos (digits2_pos m1)) in *.
  set (d2 := Z.pos (digits2_pos m2)) in *.
  set (e0 := Z.min (Z.max (d1 + e1 - (d2 + e2) - 53) (-1074)) (e1 - e2)) in *.
  set (s := (e1 - e2 - e0)%Z) in *.
  assert (Hs : (0 <= s)%Z) by (subst s e0; lia).
  set (m' := match s with
             | 0%Z => Z.pos m1
             | Z.pos _ => Z.shiftl (Z.pos m1) s
             | Z.neg _ => 0%Z
             end) in *.
  assert (Em' : m' = (Z.pos m1 * 2 ^ s)%Z).
  { subst m'. destruct s as [ | p | p] eqn:Es; try lia.
    apply Z.shiftl_mul_pow2. lia. }
  clearbody m'.
  pose proof (Z_div_mod m' (Z.pos m2) eq_refl) as Hdiv.
  destruct (Z.div_eucl m' (Z.pos m2)) as [q0 r] eqn:Ediv.
  destruct Hdiv as [Hdiv Hr].
  injection E as <- <- <-.
  assert (Hm' : (0 < m')%Z).
  { rewrite Em'. apply Z.mul_pos_pos; [lia | apply Z.pow_pos_nonneg; lia]. }
  assert (Hq : (0 <= q0)%Z) by nia.
  assert (HYpos : 0 < inject_Z (Z.pos m2) * pow2 e2) by apply (mag_is_pos _ _ HY).
  assert (Hy : x * pow2 (- e0) * inject_Z (Z.pos m2)
               == inject_Z (Z.pos m2 * q0 + r)).
  { rewrite <- Hdiv, Em', inject_Z_mult, pow2_inject by exact Hs.
    assert (Ee : pow2 e1 == pow2 s * pow2 e2 * pow2 e0).
    { rewrite <- !pow2_add. replace (s + e2 + e0)%Z with e1 by (subst s; lia).
      reflexivity. }
    pose proof (pow2_cancel e0) as Hc. pose proof (pow2_pos e2) as Hp2.
    unfold x. rewrite Ee.
    transitivity (inject_Z (Z.pos m1) * pow2 s * (pow2 (- e0) * pow2 e0)).
    - field. split; [lra | ].
      intros H0. rewrite H0 in HYpos. lra.
    - rewrite Hc. ring. }
  pose proof (ratio_location _ _ _ _ (eq_refl : (0 < Z.pos m2)%Z) Hr Hy) as Hloc.
  split; [exact Hq | ]. split; [exact Hloc | ].
  exists D. split; [exact HD | ]. rewrite !fexp_spec.
  destruct (loc_ok_range _ _ _ Hloc) as [Hy1 Hy2].
  destruct q0 as [ | p | p]; try lia.
  - simpl Zdigits2. change (inject_Z 0) with 0 in Hy2.
    assert (Hx : x < pow2 e0).
    { apply (scale_lt _ _ e0) in Hy2. rewrite pow2_shift in Hy2.
      replace (- e0 + e0)%Z with 0%Z in Hy2 by lia.
      change (pow2 0) with 1 in Hy2. lra. }
    assert (HDe : (D <= e0)%Z).
    { destruct (Z_le_gt_dec D e0) as [ | Hgt]; [assumption | exfalso].
      assert (pow2 e0 <= pow2 (D - 1)) by (apply pow2_le; lia).
      destruct HD as [HD1 _]. lra. }
    subst e0. lia.
  - assert (HD' : mag_is x (Z.pos (digits2_pos p) + e0)).
    { pose proof (mag_of_digits p e0) as [Hp1 Hp2].
      destruct (digits2_pos_bounds p) as [_ Hp3].
      assert (Hp4 : inject_Z (Z.pos p) + 1 <= pow2 (Z.pos (digits2_pos p))).
      { rewrite <- pow2_inject by lia. rewrite <- inject_Z_succ, <- Zle_Qle.
        lia. }
      assert (Ex : x == x * pow2 (- e0) * pow2 e0).
      { rewrite pow2_shift. replace (- e0 + e0)%Z with 0%Z by lia.
        change (pow2 0) with 1. ring. }
      split.
      - rewrite Ex. apply (Qle_trans _ _ _ Hp1). apply scale_le, Hy1.
      - rewrite Ex, pow2_add. apply scale_lt. lra. }
    pose proof (mag_is_unique _ _ _ HD HD') as ED.
    simpl Zdigits2. rewrite <- ED. subst e0. lia.
Qed.

Lemma SFdiv_spec (a r : spec_float) (va vr v : Q) :
  SFvalue a = Some va -> SFvalue r = Some vr -> 0 < vr ->
  SFvalue (SFdiv prec emax a r) = Some v ->
  rounds (va / vr) v.
Proof.
  intros Hva Hvr Hpos Hv.
  destruct r as [sr | sr | | sr mr er]; try discriminate.
  { cbn [SFvalue] in Hvr. injection Hvr as <-. lra. }
  pose proof (mag_is_pos _ _ (mag_of_digits mr er)) as HY.
  assert (sr = false).
  { destruct sr; [ | reflexivity]. cbn [SFvalue] in Hvr.
    injection Hvr as <-. lra. }
  subst sr. cbn [SFvalue] in Hvr. injection Hvr as <-.
  destruct a as [sa | sa | | sa ma ea]; try discriminate.
  - cbn [SFvalue SFdiv] in Hva, Hv. injection Hva as <-. injection Hv as <-.
    left. split; [ | reflexivity].
    set (Y := inject_Z (Z.pos mr) * pow2 er) in *. clearbody Y. field. lra.
  - cbn [SFdiv] in Hv.
    destruct (SFdiv_core_binary prec emax (Z.pos ma) ea (Z.pos mr) er)
      as [[mz ez] lz] eqn:E.
    destruct (SFdiv_core_binary_spec _ _ _ _ _ _ _ E) as (Hq & Hloc & D & HD & Hc).
    rewrite xorb_false_r in Hv.
    pose proof (binary_round_aux_spec sa mz ez lz _ D v Hq Hloc HD Hc Hv) as Hr.
    pose proof (mag_is_pos _ _ HD) as Hx.
    cbn [SFvalue] in Hva. injection Hva as <-.
    set (X := inject_Z (Z.pos ma) * pow2 ea) in *.
    set (Y := inject_Z (Z.pos mr) * pow2 er) in *. clearbody X Y.
    destruct sa.
    + assert (E' : X / Y == - (- X / Y)) by (field; lra).
      right; right. split; [lra | ].
      apply (rounds_pos_ext (X / Y) _ (- v)); [exact E' | reflexivity | exact Hr].
    + right; left. split; assumption.
Qed.

(** *** Comparisons read the values *)

Lemma canonical_exponent_order (m1 m2 : positive) (e1 e2 : Z) :
  canonical_mantissa prec emax m1 e1 = true ->
  canonical_mantissa prec emax m2 e2 = true ->
  (e1 < e2)%Z ->
  inject_Z (Z.pos m1) * pow2 e1 < inject_Z (Z.pos m2) * pow2 e2.
Proof.
  unfold canonical_mantissa. rewrite !fexp_spec. intros H1 H2 Hlt.
  apply Z.eqb_eq in H1, H2.
  destruct (mag_of_digits m1 e1) as [_ Hhi].
  destruct (mag_of_digits m2 e2) as [Hlo _].
  apply (Qlt_le_trans _ _ _ Hhi). apply (Qle_trans _ (pow2 (52 + e2))).
  - apply pow2_le. lia.
  - apply (Qle_trans _ (pow2 (Z.pos (digits2_pos m2) + e2 - 1)));
      [apply pow2_le; lia | exact Hlo].
Qed.

Lemma SFcompare_value (a b : spec_float) (va vb : Q) (c : comparison) :
  SpecFloat.valid_binary prec emax a = true ->
  SpecFloat.valid_binary prec emax b = true ->
  SFvalue a = Some va -> SFvalue b = Some vb ->
  SFcompare a b = Some c ->
  match c with
  | Lt => va < vb
  | Eq => va == vb
  | Gt => vb < va
  end.
Proof.
  intros Ha Hb Hva Hvb Hc.
  destruct a as [sa | sa | | sa ma ea]; try discriminate;
    destruct b as [sb | sb | | sb mb eb]; try discriminate;
    cbn [SFvalue] in Hva, Hvb; injection Hva as <-; injection Hvb as <-;
    cbn [SFcompare] in Hc; injection Hc as <-.
  - reflexivity.
  - pose proof (mag_is_pos _ _ (mag_of_digits mb eb)). destruct sb; lra.
  - pose proof (mag_is_pos _ _ (mag_of_digits ma ea)). destruct sa; lra.
  - pose proof (mag_is_pos _ _ (mag_of_digits ma ea)) as Hpa.
    pose proof (mag_is_pos _ _ (mag_of_digits mb eb)) as Hpb.
    cbn [SpecFloat.valid_binary] in Ha, Hb. unfold bounded in Ha, Hb.
    apply andb_prop in Ha, Hb. destruct Ha as [Ha _], Hb as [Hb _].
    assert (Hm : match Pos.compare_cont Eq ma mb with
                 | Lt => inject_Z (Z.pos ma) < inject_Z (Z.pos mb)
                 | Eq => inject_Z (Z.pos ma) == inject_Z (Z.pos mb)
                 | Gt => inject_Z (Z.pos mb) < inject_Z (Z.pos ma)
                 end).
    { change (Pos.compare_cont Eq ma mb) with (Pos.compare ma mb).
      destruct (Pos.compare_spec ma mb) as [E | E | E].
      - rewrite E. reflexivity.
      - rewrite <- Zlt_Qlt. lia.
      - rewrite <- Zlt_Qlt. lia. }
    destruct sa, sb; try lra;
      destruct (Z.compare_spec ea eb) as [E | E | E];
      try (pose proof (canonical_exponent_order _ _ _ _ Ha Hb E); lra);
      try (pose proof (canonical_exponent_order _ _ _ _ Hb Ha E); lra);
      subst eb; pose proof (pow2_pos ea) as Hp;
      destruct (Pos.compare_cont Eq ma mb); cbn [CompOpp];
      try (rewrite Hm; reflexivity);
      try (apply (scale_lt _ _ ea) in Hm; lra).
Qed.

Local Open Scope float_scope.

Lemma leb_value (a b : float) (va vb : Q) :
  double_value a = Some va -> double_value b = Some vb ->
  (a <=? b) = true -> (va <= vb)%Q.
Proof.
  unfold double_value. intros Hva Hvb H. rewrite leb_spec in H.
  unfold SFleb in H.
  destruct (SFcompare (Prim2SF a) (Prim2SF b)) as [c | ] eqn:Ec;
    [ | discriminate].
  pose proof (SFcompare_value _ _ _ _ _ (Prim2SF_valid a) (Prim2SF_valid b)
                Hva Hvb Ec) as Hc.
  destruct c; try discriminate; lra.
Qed.

Lemma ltb_false_value (a b : float) (va vb : Q) :
  double_value a = Some va -> double_value b = Some vb ->
  (a <? b) = false -> (vb <= va)%Q.
Proof.
  unfold double_value. intros Hva Hvb H. rewrite ltb_spec in H.
  unfold SFltb in H.
  destruct (SFcompare (Prim2SF a) (Prim2SF b)) as [c | ] eqn:Ec.
  - pose proof (SFcompare_value _ _ _ _ _ (Prim2SF_valid a) (Prim2SF_valid b)
                  Hva Hvb Ec) as Hc.
    destruct c; try discriminate; lra.
  - destruct (Prim2SF a) as [ | | | ? ? ?], (Prim2SF b) as [ | | | ? ? ?];
      discriminate.
Qed.

Lemma ltb_zero_positive (r : float) :
  (0 <? r) = true ->
  Prim2SF r = S754_infinity false
  \/ exists vr, double_value r = Some vr /\ (0 < vr)%Q.
Proof.
  unfold double_value. intros H. rewrite ltb_spec in H.
  change (Prim2SF 0) with (S754_zero false) in H. unfold SFltb in H.
  destruct (Prim2SF r) as [s | s | | s m e]; cbn [SFcompare] in H;
    try discriminate.
  - destruct s; [discriminate | left; reflexivity].
  - destruct s; [discriminate | ]. right. eexists. split; [reflexivity | ].
    apply (mag_is_pos _ _ (mag_of_digits m e)).
Qed.

Lemma sub_value (a o : float) (v : Q) :
  double_value (a - o) = Some v ->
  exists va vo,
    double_value a = Some va /\ double_value o = Some vo
    /\ rounds (va - vo) v.
Proof.
  unfold double_value. rewrite sub_spec. intros Hv.
  destruct (SFsub_finite_operands _ _ _ Hv) as (va & vo & Hva & Hvo).
  exists va, vo. split; [exact Hva | ]. split; [exact Hvo | ].
  apply (SFsub_spec _ _ _ _ _ (Prim2SF_valid a) (Prim2SF_valid o) Hva Hvo Hv).
Qed.

Lemma div_value (d r : float) (vr v : Q) :
  double_value r = Some vr -> (0 < vr)%Q ->
  double_value (d / r) = Some v ->
  exists vd, double_value d = Some vd /\ rounds (vd / vr) v.
Proof.
  unfold double_value. rewrite div_spec. intros Hvr Hpos Hv.
  assert (Hd : exists vd, SFvalue (Prim2SF d) = Some vd).
  { destruct (Prim2SF d) as [s | s | | s m e], (Prim2SF r) as [t | t | | t n f];
      try discriminate; eexists; reflexivity. }
  destruct Hd as [vd Hvd]. exists vd. split; [exact Hvd | ].
  apply (SFdiv_spec _ _ _ _ _ Hvd Hvr Hpos Hv).
Qed.

Lemma div_infinity (d r : float) (v : Q) :
  Prim2SF r = S754_infinity false ->
  double_value (d / r) = Some v -> v = 0%Q.
Proof.
  unfold double_value. rewrite div_spec. unfold SF64div.
  intros Hr Hv. rewrite Hr in Hv.
  destruct (Prim2SF d) as [s | s | | s m e]; cbn [SFdiv SFvalue] in Hv;
    congruence.
Qed.

(** Subtracting the same double and dividing by the same positive double
    keep the order of the values, whenever the results are finite. *)
Lemma sub_monotone (a a' o : float) (v v' : Q) :
  (a <=? a') = true ->
  double_value (a - o) = Some v -> double_value (a' - o) = Some v' ->
  (v <= v')%Q.
Proof.
  intros Hle Hv Hv'.
  destruct (sub_value _ _ _ Hv) as (va & vo & Hva & Hvo & Hr).
  destruct (sub_value _ _ _ Hv') as (va' & vo' & Hva' & Hvo' & Hr').
  assert (vo' = vo) by congruence. subst vo'.
  pose proof (leb_value _ _ _ _ Hva Hva' Hle).
  apply (rounds_monotone (va - vo) (va' - vo)); [lra | assumption | assumption].
Qed.

Lemma div_monotone (d d' r : float) (vd vd' v v' : Q) :
  (0 <? r) = true ->
  double_value d = Some vd -> double_value d' = Some vd' -> (vd <= vd')%Q ->
  double_value (d / r) = Some v -> double_value (d' / r) = Some v' ->
  (v <= v')%Q.
Proof.
  intros Hr Hvd Hvd' Hle Hv Hv'.
  destruct (ltb_zero_positive r Hr) as [Hinf | (vr & Hvr & Hpos)].
  - rewrite (div_infinity _ _ _ Hinf Hv), (div_infinity _ _ _ Hinf Hv'). lra.
  - destruct (div_value _ _ _ _ Hvr Hpos Hv) as (w & Hw & Hq).
    destruct (div_value _ _ _ _ Hvr Hpos Hv') as (w' & Hw' & Hq').
    assert (w = vd) by congruence. assert (w' = vd') by congruence. subst w w'.
    apply (rounds_monotone (vd / vr) (vd' / vr)); [ | assumption | assumption].
    unfold Qdiv. apply Qmult_le_compat_r; [exact Hle | ].
    apply Qlt_le_weak, Qinv_lt_0_compat, Hpos.
Qed.

End Rounding.

(** ** Vectors *)

Lemma vec_at_middle {A : Type} (pre post : list A) (a : A) :
  vec_at (pre ++ a :: post) (Z.of_nat (List.length pre)) = Ret a.
Proof.
  unfold vec_at.
  destruct (Z.ltb_spec (Z.of_nat (List.length pre)) 0) as [Hneg | _]; [lia | ].
  rewrite Nat2Z.id, nth_error_app2 by lia.
  rewrite Nat.sub_diag. reflexivity.
Qed.

Lemma vec_set_middle {A : Type} (pre post : list A) (a b : A) :
  vec_set (pre ++ a :: post) (List.length pre) b = pre ++ b :: post.
Proof.
  induction pre as [ | c pre IH]; simpl; [reflexivity | ].
  now rewrite IH.
Qed.

Lemma vec_empty_push_back {A : Type} (v : list A) (a : A) :
  vec_empty (push_back v a) = false.
Proof. destruct v; reflexivity. Qed.

(** ** PathSmoother *)

Lemma smoothApproachToGoal_unfold (goal : Pose.t) (hdr : Header.t)
    (pre : list PoseStamped.t) (stl last : PoseStamped.t) :
  smoothApproachToGoal goal (Path.mk hdr (pre ++ [stl; last])) =
  if squared_distance goal (PoseStamped.pose stl)
     <? squared_distance (PoseStamped.pose last) (PoseStamped.pose stl)
  then Ret (Path.mk hdr (pre ++ [stl; PoseStamped.set_pose last goal]))
  else Ret (Path.mk hdr (pre ++ [stl; last; goal_copy goal])).
Proof.
  unfold smoothApproachToGoal, vec_size, push_back, Path.set_poses.
  cbn [Path.poses Path.header].
  rewrite length_app. cbn [List.length].
  replace (Z.of_nat (List.length pre + 2) - 2)%Z
    with (Z.of_nat (List.length pre)) by lia.
  rewrite vec_at_middle. cbn [bind].
  replace (Z.of_nat (List.length pre + 2) - 1)%Z
    with (Z.of_nat (List.length (pre ++ [stl]))) by (rewrite length_app; simpl; lia).
  replace (pre ++ [stl; last]) with ((pre ++ [stl]) ++ [last])
    by (rewrite <- app_assoc; reflexivity).
  rewrite vec_at_middle. cbn [bind].
  replace (Nat.pred (List.length pre + 2)) with (List.length (pre ++ [stl]))
    by (rewrite length_app; simpl; lia).
  rewrite vec_set_middle.
  rewrite <- !app_assoc. reflexivity.
Qed.

(** C3 (as the code has it).  On a path with at least two waypoints,
    [smoothApproachToGoal] compares the squared distances from the
    last-but-one waypoint to the last waypoint (a) and to the true goal (b).
    It replaces the last waypoint's pose by the goal only when (b) is
    strictly smaller than (a); when (a) <= (b), ties included, it appends the
    goal as an additional final waypoint, and so it does whenever (b) < (a)
    fails (a distance that is a NaN compares false). *)
Theorem smoothApproachToGoal_strict :
  forall (goal : Pose.t) (hdr : Header.t) (pre : list PoseStamped.t)
         (stl last : PoseStamped.t),
    let a := squared_distance (PoseStamped.pose last) (PoseStamped.pose stl) in
    let b := squared_distance goal (PoseStamped.pose stl) in
    ((b <? a) = true ->
     smoothApproachToGoal goal (Path.mk hdr (pre ++ [stl; last])) =
     Ret (Path.mk hdr (pre ++ [stl; PoseStamped.set_pose last goal])))
    /\
    ((a <=? b) = true ->
     smoothApproachToGoal goal (Path.mk hdr (pre ++ [stl; last])) =
     Ret (Path.mk hdr (pre ++ [stl; last; goal_copy goal])))
    /\
    ((b <? a) = false ->
     smoothApproachToGoal goal (Path.mk hdr (pre ++ [stl; last])) =
     Ret (Path.mk hdr (pre ++ [stl; last; goal_copy goal]))).
Proof.
  intros goal hdr pre stl last a b.
  rewrite smoothApproachToGoal_unfold. fold a b.
  split; [ | split]; intros H.
  - now rewrite H.
  - now rewrite (leb_not_ltb a b H).
  - now rewrite H.
Qed.

(** C3, refuted as stated: a tie.  From the last-but-one waypoint (0,0) the
    last waypoint (1,0) and the goal (0,1) are equally far, so (b) <= (a);
    the code appends the goal and does not snap the last waypoint. *)
Lemma smoothApproachToGoal_tie_appends :
  let stl := waypoint 0 0 in
  let last := waypoint 1 0 in
  let goal := Pose.mk (Point.mk 0 1 0) (Quaternion.mk 0 0 0 1) in
  let plan := Path.mk Header.empty [stl; last] in
  (squared_distance goal (PoseStamped.pose stl)
     <=? squared_distance (PoseStamped.pose last) (PoseStamped.pose stl)) = true
  /\ smoothApproachToGoal goal plan
     = Ret (Path.mk Header.empty [stl; last; goal_copy goal])
  /\ smoothApproachToGoal goal plan
     <> Ret (Path.mk Header.empty [stl; PoseStamped.set_pose last goal]).
Proof.
  cbv zeta. split; [ | split].
  - vm_compute. reflexivity.
  - vm_compute. reflexivity.
  - vm_compute. discriminate.
Qed.

(** C4 (as the code has it).  When the terminal waypoint's pose already is
    the true goal, the two squared distances tie and [smoothApproachToGoal]
    appends the goal once more: the path grows by one waypoint.  Hence a
    second application after a first always appends a further copy of the
    goal. *)
Theorem smoothApproachToGoal_at_goal_appends :
  forall (goal : Pose.t) (hdr : Header.t) (pre : list PoseStamped.t)
         (stl : PoseStamped.t) (h : Header.t),
    smoothApproachToGoal goal (Path.mk hdr (pre ++ [stl; PoseStamped.mk h goal]))
    = Ret (Path.mk hdr (pre ++ [stl; PoseStamped.mk h goal; goal_copy goal]))
    /\
    forall (last : PoseStamped.t) (p1 : Path.t),
      smoothApproachToGoal goal (Path.mk hdr (pre ++ [stl; last])) = Ret p1 ->
      smoothApproachToGoal goal p1
      = Ret (Path.set_poses p1 (push_back (Path.poses p1) (goal_copy goal))).
Proof.
  intros goal hdr pre stl h.
  split.
  - rewrite smoothApproachToGoal_unfold. cbn [PoseStamped.pose].
    now rewrite ltb_irrefl.
  - intros last p1. rewrite smoothApproachToGoal_unfold.
    destruct (_ <? _); intros Hret.
    + assert (E : p1 = Path.mk hdr (pre ++ [stl; PoseStamped.set_pose last goal]))
        by congruence.
      subst p1. rewrite smoothApproachToGoal_unfold.
      cbn [PoseStamped.pose PoseStamped.set_pose]. rewrite ltb_irrefl.
      unfold Path.set_poses, push_back. cbn [Path.poses Path.header].
      rewrite <- !app_assoc. reflexivity.
    + assert (E : p1 = Path.mk hdr (pre ++ [stl; last; goal_copy goal]))
        by congruence.
      subst p1.
      replace (pre ++ [stl; last; goal_copy goal])
        with ((pre ++ [stl]) ++ [last; goal_copy goal])
        by (rewrite <- app_assoc; reflexivity).
      rewrite smoothApproachToGoal_unfold.
      cbn [PoseStamped.pose goal_copy]. rewrite ltb_irrefl.
      unfold Path.set_poses, push_back. cbn [Path.poses Path.header].
      rewrite <- !app_assoc. reflexivity.
Qed.

(** C4, refuted as stated: the path (0,0), (1,0) already ends at the goal
    (1,0); smoothing it returns a three-waypoint path, not the path itself. *)
Lemma smoothApproachToGoal_not_idempotent :
  let goal := Pose.mk (Point.mk 1 0 0) (Quaternion.mk 0 0 0 1) in
  let plan := Path.mk Header.empty [waypoint 0 0; PoseStamped.mk Header.empty goal] in
  smoothApproachToGoal goal plan <> Ret plan
  /\ smoothApproachToGoal goal plan
     = Ret (Path.mk Header.empty
              [waypoint 0 0; PoseStamped.mk Header.empty goal; goal_copy goal]).
Proof.
  cbv zeta. split.
  - vm_compute. discriminate.
  - vm_compute. reflexivity.
Qed.

(** ** Rounding and conversions *)

(** The rounded value is within one half of its argument. *)
Lemma round_half_away_close (q : Q) :
  (Qabs (inject_Z (round_half_away q) - q) <= 1 # 2)%Q.
Proof.
  unfold round_half_away. apply Qabs_Qle_condition.
  destruct (Qle_bool 0 q).
  - pose proof (Qfloor_le (q + (1 # 2))) as Hlo.
    pose proof (Qlt_floor (q + (1 # 2))) as Hhi.
    rewrite inject_Z_plus in Hhi. change (inject_Z 1) with 1%Q in Hhi.
    split; lra.
  - pose proof (Qle_ceiling (q - (1 # 2))) as Hlo.
    pose proof (Qceiling_lt (q - (1 # 2))) as Hhi.
    unfold Z.sub in Hhi. rewrite inject_Z_plus in Hhi.
    change (inject_Z (- (1))) with (- (1))%Q in Hhi.
    split; lra.
Qed.

Lemma Qfloor_unique (q : Q) (n : Z) :
  (inject_Z n <= q)%Q -> (q < inject_Z n + 1)%Q -> Qfloor q = n.
Proof.
  intros Hlo Hhi.
  assert (H1 : (n <= Qfloor q)%Z).
  { rewrite <- (Qfloor_Z n). now apply Qfloor_resp_le. }
  assert (H2 : (Qfloor q < n + 1)%Z).
  { rewrite Zlt_Qlt, inject_Z_plus. change (inject_Z 1) with 1%Q.
    apply Qle_lt_trans with q; [apply Qfloor_le | exact Hhi]. }
  lia.
Qed.

Lemma Qceiling_unique (q : Q) (n : Z) :
  (inject_Z n - 1 < q)%Q -> (q <= inject_Z n)%Q -> Qceiling q = n.
Proof.
  intros Hlo Hhi. unfold Qceiling.
  assert (E : Qfloor (- q) = (- n)%Z).
  { apply Qfloor_unique; rewrite inject_Z_opp; lra. }
  rewrite E. lia.
Qed.

(** The quotients that round to a non-negative index. *)
Lemma round_half_away_iff (q : Q) (m : Z) :
  (0 <= m)%Z -> (round_half_away q = m <-> rounds_to q m).
Proof.
  intros Hm. unfold round_half_away, rounds_to.
  assert (Hm' : (0 <= inject_Z m)%Q)
    by (change 0%Q with (inject_Z 0); rewrite <- Zle_Qle; exact Hm).
  destruct (Qle_bool 0 q) eqn:Eq.
  - apply Qle_bool_iff in Eq.
    pose proof (Qfloor_le (q + (1 # 2))) as Hlo.
    pose proof (Qlt_floor (q + (1 # 2))) as Hhi.
    rewrite inject_Z_plus in Hhi. change (inject_Z 1) with 1%Q in Hhi.
    destruct (Z.eqb_spec m 0) as [-> | Hne].
    + change (inject_Z 0) with 0%Q in *. split.
      * intros E. rewrite E in Hlo, Hhi. change (inject_Z 0) with 0%Q in *.
        split; lra.
      * intros [H1 H2]. apply Qfloor_unique; change (inject_Z 0) with 0%Q; lra.
    + split.
      * intros E. rewrite E in Hlo, Hhi. split; lra.
      * intros [H1 H2]. apply Qfloor_unique; lra.
  - assert (Hq : (q < 0)%Q).
    { apply Qnot_le_lt. intros H. apply Qle_bool_iff in H. congruence. }
    pose proof (Qle_ceiling (q - (1 # 2))) as Hlo.
    pose proof (Qceiling_lt (q - (1 # 2))) as Hhi.
    unfold Z.sub in Hhi. rewrite inject_Z_plus in Hhi.
    change (inject_Z (- (1))) with (- (1))%Q in Hhi.
    destruct (Z.eqb_spec m 0) as [-> | Hne].
    + change (inject_Z 0) with 0%Q in *. split.
      * intros E. rewrite E in Hlo, Hhi. change (inject_Z 0) with 0%Q in *.
        split; lra.
      * intros [H1 H2]. apply Qceiling_unique; change (inject_Z 0) with 0%Q; lra.
    + assert (H1m : (1 <= inject_Z m)%Q).
      { change 1%Q with (inject_Z 1). rewrite <- Zle_Qle. lia. }
      split.
      * intros E. rewrite E in Hlo, Hhi. exfalso. lra.
      * intros [H1 H2]. exfalso. lra.
Qed.

(** [std::round] keeps the order and the sign. *)
Lemma round_half_away_monotone (q q' : Q) :
  (q <= q')%Q -> (round_half_away q <= round_half_away q')%Z.
Proof.
  intros Hle. unfold round_half_away.
  destruct (Qle_bool 0 q) eqn:E; destruct (Qle_bool 0 q') eqn:E'.
  - apply Qfloor_resp_le. lra.
  - apply Qle_bool_iff in E.
    assert (Hn : ~ (0 <= q')%Q) by (intros H; apply Qle_bool_iff in H; congruence).
    exfalso. apply Hn. lra.
  - apply Qle_bool_iff in E'.
    assert (Hn : ~ (0 <= q)%Q) by (intros H; apply Qle_bool_iff in H; congruence).
    apply Z.le_trans with 0%Z.
    + change 0%Z with (Qceiling 0). apply Qceiling_resp_le.
      apply Qnot_le_lt in Hn. lra.
    + change 0%Z with (Qfloor 0). apply Qfloor_resp_le. lra.
  - apply Qceiling_resp_le. lra.
Qed.

Lemma round_half_away_nonneg (q : Q) :
  (0 <= q)%Q -> (0 <= round_half_away q)%Z.
Proof.
  intros Hq. change 0%Z with (round_half_away 0).
  apply round_half_away_monotone, Hq.
Qed.

Lemma static_cast_int_inv (r : rounded) (i : Z) :
  static_cast_int r = Ret i -> r = Some i /\ (INT_MIN <= i <= INT_MAX)%Z.
Proof.
  unfold static_cast_int. destruct r as [t | ]; [ | discriminate].
  destruct (Z.leb_spec INT_MIN t) as [Hlo | Hlo]; cbn [andb]; [ | discriminate].
  destruct (Z.leb_spec t INT_MAX) as [Hhi | Hhi]; [ | discriminate].
  intros Hret. assert (E : t = i) by congruence. subst t.
  split; [reflexivity | lia].
Qed.

Lemma static_cast_int_Some (t : Z) :
  (INT_MIN <= t <= INT_MAX)%Z -> static_cast_int (Some t) = Ret t.
Proof.
  intros [Hlo Hhi]. unfold static_cast_int.
  destruct (Z.leb_spec INT_MIN t); [ | lia].
  destruct (Z.leb_spec t INT_MAX); [reflexivity | lia].
Qed.

Lemma to_unsigned_range (z : Z) : (0 <= to_unsigned z < 2 ^ 32)%Z.
Proof. unfold to_unsigned. apply Z.mod_pos_bound. lia. Qed.

Lemma to_unsigned_nonneg (z : Z) :
  (0 <= z <= INT_MAX)%Z -> to_unsigned z = z.
Proof.
  unfold to_unsigned, INT_MAX. intros H. apply Z.mod_small. lia.
Qed.

(** A negative [int] converts to an [unsigned int] of at least 2^31. *)
Lemma to_unsigned_neg (z : Z) :
  (INT_MIN <= z < 0)%Z -> (2 ^ 31 <= to_unsigned z)%Z.
Proof.
  unfold to_unsigned, INT_MIN. intros H.
  replace z with (z + 2 ^ 32 + (- 1) * 2 ^ 32)%Z by lia.
  rewrite Z_mod_plus_full, Z.mod_small; lia.
Qed.

(** For a size of at most 2^31, or an [int] that is not negative, the
    [int] converted to [unsigned int] is below the size exactly when the
    [int] itself is a cell index. *)
Lemma to_unsigned_below (z size : Z) :
  (INT_MIN <= z <= INT_MAX)%Z -> (size <= 2 ^ 31)%Z \/ (0 <= z)%Z ->
  ((to_unsigned z <? size)%Z = true <-> (0 <= z < size)%Z).
Proof.
  intros Hz Hsize. rewrite Z.ltb_lt.
  destruct (Z.neg_nonneg_cases z) as [Hneg | Hpos].
  - pose proof (to_unsigned_neg z ltac:(lia)). lia.
  - rewrite to_unsigned_nonneg by lia. lia.
Qed.

(** ** CoordinateMapper *)

Lemma worldToMap_off_origin (cm : Costmap2D) (wx wy : float) :
  (wx <? getOriginX cm) = true \/ (wy <? getOriginY cm) = true ->
  worldToMap cm wx wy = Ret None.
Proof.
  intros H. unfold worldToMap.
  assert (E : (wx <? getOriginX cm) || (wy <? getOriginY cm) = true).
  { apply orb_true_iff. exact H. }
  now rewrite E.
Qed.

(** One axis of [worldToMap] with a positive resolution: the rounded
    quotient is not negative for a coordinate not below the origin, and it
    grows with the coordinate. *)
Lemma cell_axis_nonneg (w o r : float) (i : Z) :
  (0 <? r) = true -> (w <? o) = false ->
  std_round ((w - o) / r) = Some i -> (0 <= i)%Z.
Proof.
  intros Hr Hw. unfold std_round.
  destruct (double_value ((w - o) / r)) as [q | ] eqn:Eq; [ | discriminate].
  cbn [option_map]. intros Hi. assert (i = round_half_away q) by congruence.
  subst i. apply round_half_away_nonneg.
  destruct (ltb_zero_positive r Hr) as [Hinf | (vr & Hvr & Hpos)].
  - rewrite (div_infinity _ _ _ Hinf Eq). lra.
  - destruct (div_value _ _ _ _ Hvr Hpos Eq) as (vd & Hvd & Hq).
    destruct (sub_value _ _ _ Hvd) as (vw & vo & Hvw & Hvo & Hd).
    pose proof (ltb_false_value _ _ _ _ Hvw Hvo Hw) as Hle.
    assert (H0 : (0 <= vd)%Q) by (apply (rounds_sign _ _ Hd); lra).
    apply (rounds_sign _ _ Hq).
    unfold Qdiv. apply Qmult_le_0_compat; [exact H0 | ].
    apply Qlt_le_weak, Qinv_lt_0_compat, Hpos.
Qed.

Lemma cell_axis_monotone (w w' o r : float) (i i' : Z) :
  (0 <? r) = true -> (w <=? w') = true ->
  std_round ((w - o) / r) = Some i -> std_round ((w' - o) / r) = Some i' ->
  (i <= i')%Z.
Proof.
  intros Hr Hle. unfold std_round.
  destruct (double_value ((w - o) / r)) as [q | ] eqn:Eq; [ | discriminate].
  destruct (double_value ((w' - o) / r)) as [q' | ] eqn:Eq'; [ | discriminate].
  cbn [option_map]. intros Hi Hi'.
  assert (i = round_half_away q) by congruence.
  assert (i' = round_half_away q') by congruence. subst i i'.
  apply round_half_away_monotone.
  destruct (ltb_zero_positive r Hr) as [Hinf | (vr & Hvr & Hpos)].
  - rewrite (div_infinity _ _ _ Hinf Eq), (div_infinity _ _ _ Hinf Eq'). lra.
  - destruct (div_value _ _ _ _ Hvr Hpos Eq) as (vd & Hvd & _).
    destruct (div_value _ _ _ _ Hvr Hpos Eq') as (vd' & Hvd' & _).
    apply (div_monotone (w - o) (w' - o) r vd vd' q q' Hr Hvd Hvd');
      [ | exact Eq | exact Eq'].
    apply (sub_monotone w w' o vd vd' Hle Hvd Hvd').
Qed.

(** Without wrap-around, the rounded indices of a point not below the
    origin are small enough, or not negative. *)
Lemma no_wrap_around_axes (cm : Costmap2D) (wx wy : float) (gx gy : Z) :
  no_wrap_around cm ->
  (wx <? getOriginX cm) = false -> (wy <? getOriginY cm) = false ->
  cell_of wx (getOriginX cm) (getResolution cm) = Some gx ->
  cell_of wy (getOriginY cm) (getResolution cm) = Some gy ->
  ((getSizeInCellsX cm <= 2 ^ 31)%Z \/ (0 <= gx)%Z)
  /\ ((getSizeInCellsY cm <= 2 ^ 31)%Z \/ (0 <= gy)%Z).
Proof.
  intros [[Hsx Hsy] | Hres] Hx Hy Hcx Hcy.
  - split; left; assumption.
  - split; right.
    + exact (cell_axis_nonneg _ _ _ _ Hres Hx Hcx).
    + exact (cell_axis_nonneg _ _ _ _ Hres Hy Hcy).
Qed.

Lemma worldToMap_eval (cm : Costmap2D) (wx wy : float) (gx gy : Z) :
  (wx <? getOriginX cm) = false -> (wy <? getOriginY cm) = false ->
  cell_of wx (getOriginX cm) (getResolution cm) = Some gx ->
  cell_of wy (getOriginY cm) (getResolution cm) = Some gy ->
  (INT_MIN <= gx <= INT_MAX)%Z -> (INT_MIN <= gy <= INT_MAX)%Z ->
  worldToMap cm wx wy =
  Ret (if ((to_unsigned gx <? getSizeInCellsX cm)
           && (to_unsigned gy <? getSizeInCellsY cm))%Z
       then Some (to_unsigned gx, to_unsigned gy)
       else None).
Proof.
  intros Hx Hy Hcx Hcy Hgx Hgy. unfold worldToMap, std_round.
  unfold cell_of in Hcx, Hcy.
  rewrite Hx, Hy, Hcx, Hcy. cbn [orb].
  rewrite !static_cast_int_Some by assumption. cbn [bind].
  destruct (_ && _); reflexivity.
Qed.

(** C5.  On a grid of at most 2^31 cells a side or with a positive
    resolution, and, for a point not below the origin, rounded coordinates [gx = round ((x - origin.x) /
    resolution)] and [gy = round ((y - origin.y) / resolution)] (difference
    and quotient being doubles) that are finite and fit an [int] (otherwise
    the C++ conversion is undefined), [worldToMap] fails exactly when
    [x < origin.x], or [y < origin.y], or the rounded cell is outside the
    grid dimensions, and otherwise it returns the rounded cell itself, never
    a clamped one. *)
Theorem worldToMap_spec :
  forall (cm : Costmap2D) (wx wy : float) (gx gy : Z),
    no_wrap_around cm ->
    ((wx <? getOriginX cm) = false -> (wy <? getOriginY cm) = false ->
     cell_of wx (getOriginX cm) (getResolution cm) = Some gx
     /\ cell_of wy (getOriginY cm) (getResolution cm) = Some gy
     /\ (INT_MIN <= gx <= INT_MAX)%Z /\ (INT_MIN <= gy <= INT_MAX)%Z) ->
    (worldToMap cm wx wy = Ret None <->
     (wx <? getOriginX cm) = true \/ (wy <? getOriginY cm) = true \/
     ~ ((0 <= gx < getSizeInCellsX cm)%Z /\ (0 <= gy < getSizeInCellsY cm)%Z))
    /\
    (worldToMap cm wx wy = Ret None \/ worldToMap cm wx wy = Ret (Some (gx, gy))).
Proof.
  intros cm wx wy gx gy Hnw Hfit.
  destruct (wx <? getOriginX cm) eqn:Hx.
  { rewrite worldToMap_off_origin by (left; exact Hx). split; [ | now left].
    split; intros _; [now left | reflexivity]. }
  destruct (wy <? getOriginY cm) eqn:Hy.
  { rewrite worldToMap_off_origin by (right; exact Hy). split; [ | now left].
    split; intros _; [right; now left | reflexivity]. }
  destruct (Hfit eq_refl eq_refl) as (Hcx & Hcy & Hgx & Hgy).
  rewrite (worldToMap_eval cm wx wy gx gy Hx Hy Hcx Hcy Hgx Hgy).
  destruct (no_wrap_around_axes cm wx wy gx gy Hnw Hx Hy Hcx Hcy) as [Hsx Hsy].
  pose proof (to_unsigned_below gx _ Hgx Hsx) as Bx.
  pose proof (to_unsigned_below gy _ Hgy Hsy) as By.
  destruct (to_unsigned gx <? getSizeInCellsX cm)%Z;
    destruct (to_unsigned gy <? getSizeInCellsY cm)%Z; cbn [andb].
  - assert (Hinx : (0 <= gx < getSizeInCellsX cm)%Z) by now apply Bx.
    assert (Hiny : (0 <= gy < getSizeInCellsY cm)%Z) by now apply By.
    rewrite !to_unsigned_nonneg by (unfold INT_MAX in *; lia).
    split; [ | now right].
    split; [discriminate | ].
    intros [H | [H | H]]; [discriminate | discriminate | ].
    exfalso. apply H. split; assumption.
  - split; [ | now left]. split; intros _; [ | reflexivity].
    right; right. intros [_ H]. apply By in H. discriminate.
  - split; [ | now left]. split; intros _; [ | reflexivity].
    right; right. intros [H _]. apply Bx in H. discriminate.
  - split; [ | now left]. split; intros _; [ | reflexivity].
    right; right. intros [H _]. apply Bx in H. discriminate.
Qed.

(** A cell that [worldToMap] returns lies inside the grid. *)
Lemma worldToMap_Some_range (cm : Costmap2D) (wx wy : float) (mx my : Z) :
  worldToMap cm wx wy = Ret (Some (mx, my)) ->
  (0 <= mx < getSizeInCellsX cm)%Z /\ (0 <= my < getSizeInCellsY cm)%Z.
Proof.
  unfold worldToMap.
  destruct (_ || _); [discriminate | ].
  destruct (static_cast_int _) as [ix | | ]; cbn [bind]; try discriminate.
  destruct (static_cast_int _) as [iy | | ]; cbn [bind]; try discriminate.
  destruct (Z.ltb_spec (to_unsigned ix) (getSizeInCellsX cm))
    as [Hx | Hx]; cbn [andb]; [ | discriminate].
  destruct (Z.ltb_spec (to_unsigned iy) (getSizeInCellsY cm))
    as [Hy | Hy]; [ | discriminate].
  intros Hret.
  assert (Ex : mx = to_unsigned ix) by congruence.
  assert (Ey : my = to_unsigned iy) by congruence.
  subst mx my.
  pose proof (to_unsigned_range ix). pose proof (to_unsigned_range iy). lia.
Qed.

(** What a successful [worldToMap] tells when the index cannot wrap around:
    the point is not below the origin and the outputs are the rounded,
    unwrapped cell inside the grid. *)
Lemma worldToMap_Some_inv (cm : Costmap2D) (wx wy : float) (mx my : Z) :
  no_wrap_around cm ->
  worldToMap cm wx wy = Ret (Some (mx, my)) ->
  (wx <? getOriginX cm) = false /\ (wy <? getOriginY cm) = false
  /\ cell_of wx (getOriginX cm) (getResolution cm) = Some mx
  /\ cell_of wy (getOriginY cm) (getResolution cm) = Some my
  /\ (0 <= mx < getSizeInCellsX cm)%Z /\ (0 <= my < getSizeInCellsY cm)%Z.
Proof.
  intros Hnw Hw.
  destruct (worldToMap_Some_range _ _ _ _ _ Hw) as [Rx Ry].
  revert Hw. unfold worldToMap.
  destruct (wx <? getOriginX cm) eqn:Ex; cbn [orb]; [discriminate | ].
  destruct (wy <? getOriginY cm) eqn:Ey; [discriminate | ].
  destruct (static_cast_int (std_round ((wx - getOriginX cm) / getResolution cm)))
    as [ix | | ] eqn:Ecx; cbn [bind]; try discriminate.
  destruct (static_cast_int (std_round ((wy - getOriginY cm) / getResolution cm)))
    as [iy | | ] eqn:Ecy; cbn [bind]; try discriminate.
  apply static_cast_int_inv in Ecx, Ecy.
  destruct Ecx as [Ecx Hix], Ecy as [Ecy Hiy].
  destruct (_ && _); [ | discriminate].
  intros Hret.
  assert (Emx : mx = to_unsigned ix) by congruence.
  assert (Emy : my = to_unsigned iy) by congruence.
  destruct (no_wrap_around_axes cm wx wy ix iy Hnw Ex Ey Ecx Ecy) as [Hsx Hsy].
  assert (Ux : to_unsigned ix = ix).
  { destruct (Z.neg_nonneg_cases ix) as [Hneg | Hpos].
    - pose proof (to_unsigned_neg ix ltac:(lia)). lia.
    - apply to_unsigned_nonneg. lia. }
  assert (Uy : to_unsigned iy = iy).
  { destruct (Z.neg_nonneg_cases iy) as [Hneg | Hpos].
    - pose proof (to_unsigned_neg iy ltac:(lia)). lia.
    - apply to_unsigned_nonneg. lia. }
  rewrite Ux in Emx. rewrite Uy in Emy. subst ix iy.
  unfold cell_of. unfold std_round in Ecx, Ecy.
  repeat split; try assumption; lia.
Qed.

(** One axis of the round trip: the coordinate mapped back is within half
    a resolution of the coordinate that was rounded, up to the rounding
    errors of the four double operations on the way. *)
Lemma roundtrip_axis_bound (m : Z) (vw vo vr vd vq vt vb : Q) :
  (0 < vr)%Q -> m = round_half_away vq ->
  (Qabs (vb - vw) <= vr / 2 + rounding_error m vw vo vr vd vq vt vb)%Q.
Proof.
  intros Hres Em. unfold rounding_error.
  pose proof (round_half_away_close vq) as Hc. rewrite <- Em in Hc.
  apply Qabs_Qle_condition in Hc. destruct Hc as [Hc1 Hc2].
  pose proof (proj1 (Qabs_Qle_condition _ _) (Qle_refl (Qabs (vd - (vw - vo)))))
    as [Ha1 Ha2].
  pose proof (proj1 (Qabs_Qle_condition _ _) (Qle_refl (Qabs (vq - vd / vr))))
    as [Hz1 Hz2].
  pose proof (proj1 (Qabs_Qle_condition _ _)
                (Qle_refl (Qabs (vt - inject_Z m * vr)))) as [Ht1 Ht2].
  pose proof (proj1 (Qabs_Qle_condition _ _) (Qle_refl (Qabs (vb - (vo + vt)))))
    as [Hb1 Hb2].
  set (A := Qabs (vd - (vw - vo))) in *.
  set (Zq := Qabs (vq - vd / vr)) in *.
  set (T := Qabs (vt - inject_Z m * vr)) in *.
  set (B := Qabs (vb - (vo + vt))) in *.
  clearbody A Zq T B.
  assert (Hp1 : (0 <= (Zq - (vq - vd / vr)) * vr)%Q)
    by (apply Qmult_le_0_compat; lra).
  assert (Hp2 : (0 <= (Zq + (vq - vd / vr)) * vr)%Q)
    by (apply Qmult_le_0_compat; lra).
  assert (Hp3 : (0 <= (inject_Z m - vq + (1 # 2)) * vr)%Q)
    by (apply Qmult_le_0_compat; lra).
  assert (Hp4 : (0 <= ((1 # 2) - (inject_Z m - vq)) * vr)%Q)
    by (apply Qmult_le_0_compat; lra).
  assert (E1 : ((Zq - (vq - vd / vr)) * vr == Zq * vr - vq * vr + vd)%Q)
    by (field; lra).
  assert (E2 : ((Zq + (vq - vd / vr)) * vr == Zq * vr + vq * vr - vd)%Q)
    by (field; lra).
  assert (E3 : ((inject_Z m - vq + (1 # 2)) * vr
                == inject_Z m * vr - vq * vr + (1 # 2) * vr)%Q) by ring.
  assert (E4 : (((1 # 2) - (inject_Z m - vq)) * vr
                == (1 # 2) * vr - inject_Z m * vr + vq * vr)%Q) by ring.
  assert (E5 : (vr / 2 == (1 # 2) * vr)%Q) by field.
  rewrite E1 in Hp1. rewrite E2 in Hp2. rewrite E3 in Hp3. rewrite E4 in Hp4.
  apply Qabs_Qle_condition. rewrite E5.
  set (P := (inject_Z m * vr)%Q) in *. set (V := (vq * vr)%Q) in *.
  set (ZV := (Zq * vr)%Q) in *. clearbody P V ZV.
  split; lra.
Qed.

(** C6 (as the code has it).  For a world point that [worldToMap] accepts
    (grid of at most 2^31 cells a side, or positive resolution), the cell is
    mapped back by
    [mapToWorld] to [x = origin.x + gx * resolution], [y = origin.y + gy *
    resolution], in doubles.  Each cell index is within one half of the
    double quotient that was rounded.  With a positive resolution, the point
    mapped back is, in each coordinate, within half a cell's resolution of
    the original plus the rounding errors of the four double operations on
    the way (difference, quotient, product, sum); where these are exact, it
    is within half a cell's resolution. *)
Theorem mapToWorld_worldToMap_roundtrip :
  forall (cm : Costmap2D) (wx wy : float) (mx my : Z),
    let res := getResolution cm in
    let back := mapToWorld cm (double_of_Z mx) (double_of_Z my) in
    no_wrap_around cm ->
    worldToMap cm wx wy = Ret (Some (mx, my)) ->
    back = (getOriginX cm + double_of_Z mx * res,
            getOriginY cm + double_of_Z my * res)
    /\ (exists qx qy : Q,
          double_value ((wx - getOriginX cm) / res) = Some qx
          /\ double_value ((wy - getOriginY cm) / res) = Some qy
          /\ (Qabs (inject_Z mx - qx) <= 1 # 2)%Q
          /\ (Qabs (inject_Z my - qy) <= 1 # 2)%Q)
    /\ (forall vw vo vr vd vq vt vb : Q,
          axis_values wx (getOriginX cm) res mx vw vo vr vd vq vt vb ->
          (0 < vr)%Q ->
          (Qabs (vb - vw)
           <= vr / 2 + rounding_error mx vw vo vr vd vq vt vb)%Q
          /\ (rounding_error mx vw vo vr vd vq vt vb == 0 ->
              Qabs (vb - vw) <= vr / 2)%Q)
    /\ (forall vw vo vr vd vq vt vb : Q,
          axis_values wy (getOriginY cm) res my vw vo vr vd vq vt vb ->
          (0 < vr)%Q ->
          (Qabs (vb - vw)
           <= vr / 2 + rounding_error my vw vo vr vd vq vt vb)%Q
          /\ (rounding_error my vw vo vr vd vq vt vb == 0 ->
              Qabs (vb - vw) <= vr / 2)%Q).
Proof.
  intros cm wx wy mx my res back Hnw Hok.
  destruct (worldToMap_Some_inv cm wx wy mx my Hnw Hok)
    as (_ & _ & Hcx & Hcy & _ & _).
  unfold cell_of in Hcx, Hcy. fold res in Hcx, Hcy.
  destruct (double_value ((wx - getOriginX cm) / res)) as [qx | ] eqn:Eqx;
    [ | discriminate].
  destruct (double_value ((wy - getOriginY cm) / res)) as [qy | ] eqn:Eqy;
    [ | discriminate].
  cbn [option_map] in Hcx, Hcy.
  assert (Emx : mx = round_half_away qx) by congruence.
  assert (Emy : my = round_half_away qy) by congruence.
  split; [reflexivity | ]. split; [ | split].
  - exists qx, qy. rewrite Emx, Emy.
    repeat split; try reflexivity; apply round_half_away_close.
  - intros vw vo vr vd vq vt vb (_ & _ & _ & _ & Hq & _ & _) Hpos.
    assert (E : vq = qx) by congruence. subst vq.
    pose proof (roundtrip_axis_bound mx vw vo vr vd qx vt vb Hpos Emx) as Hb.
    split; [exact Hb | ]. intros E0. rewrite E0 in Hb. lra.
  - intros vw vo vr vd vq vt vb (_ & _ & _ & _ & Hq & _ & _) Hpos.
    assert (E : vq = qy) by congruence. subst vq.
    pose proof (roundtrip_axis_bound my vw vo vr vd qy vt vb Hpos Emy) as Hb.
    split; [exact Hb | ]. intros E0. rewrite E0 in Hb. lra.
Qed.

(** C6, refuted as stated.  On the grid of 5 cm cells with origin (0,0) the
    point (0.125, 0.125) is in bounds; the double quotient 0.125 / 0.05 is
    2.5 (the exact quotient of the two doubles is a little less), so the
    cell is (3, 3), which maps back to 0.15000000000000002: farther from
    0.125 than half a resolution, in doubles and in exact values. *)
Lemma mapToWorld_worldToMap_roundtrip_rounds :
  let cm := grid_5cm in
  let back := mapToWorld cm (double_of_Z 3) (double_of_Z 3) in
  worldToMap cm 0.125 0.125 = Ret (Some (3, 3)%Z)
  /\ back = (0.15000000000000002, 0.15000000000000002)
  /\ (getResolution cm / 2 <? abs (fst back - 0.125)) = true
  /\ exists vb vw vr : Q,
       double_value (fst back) = Some vb /\ double_value 0.125 = Some vw
       /\ double_value (getResolution cm) = Some vr
       /\ (vr / 2 < Qabs (vb - vw))%Q.
Proof.
  cbv zeta. split; [vm_compute; reflexivity | ].
  split; [vm_compute; reflexivity | ].
  split; [vm_compute; reflexivity | ].
  eexists. eexists. eexists.
  split; [vm_compute; reflexivity | ].
  split; [vm_compute; reflexivity | ].
  split; [vm_compute; reflexivity | ].
  vm_compute. reflexivity.
Qed.

(** ** Point queries *)

(** C10.  For a world point that [worldToMap] rejects, [getPointPotential]
    returns [DBL_MAX], the largest finite double, whatever the potential
    array holds (it is not indexed); [DBL_MAX] is at least [POT_HIGH], so the
    test [potential < POT_HIGH] fails and the neighbourhood scan of
    [validPointPotential] steps over such a candidate as unreachable. *)
Theorem getPointPotential_off_grid :
  forall (self : NavfnPlanner) (p : Point.t),
    worldToMap (costmap_ self) (Point.x p) (Point.y p) = Ret None ->
    getPointPotential self p = Ret DBL_MAX
    /\ (forall pot : list float,
          getPointPotential
            (with_planner self
               (mkNavFn (nx (planner_ self)) (ny (planner_ self)) pot
                  (getPathX (planner_ self)) (getPathY (planner_ self))
                  (getPathLen (planner_ self))
                  (seed (planner_ self)) (source (planner_ self)))) p
          = Ret DBL_MAX)
    /\ (POT_HIGH <=? DBL_MAX) = true
    /\ (DBL_MAX <? POT_HIGH) = false
    /\ (forall (world_point : Point.t) (tolerance : float) (fuel : nat),
          (Point.x p <=? Point.x world_point + tolerance) = true ->
          valid_scan_x self world_point tolerance (S fuel) p
          = valid_scan_x self world_point tolerance fuel
              (Point.set_x p (Point.x p + getResolution (costmap_ self)))).
Proof.
  intros self p Hoff.
  assert (Hpot : getPointPotential self p = Ret DBL_MAX).
  { unfold getPointPotential. now rewrite Hoff. }
  assert (Hcmp : (DBL_MAX <? POT_HIGH) = false) by (vm_compute; reflexivity).
  split; [exact Hpot | ].
  split; [intros pot; unfold getPointPotential; cbn [costmap_ with_planner];
          now rewrite Hoff | ].
  split; [vm_compute; reflexivity | ].
  split; [exact Hcmp | ].
  intros world_point tolerance fuel Hin.
  cbn [valid_scan_x]. rewrite Hin, Hpot. cbn [bind]. now rewrite Hcmp.
Qed.

Lemma leaves_after_succ (lo step hi : float) (k : nat) :
  leaves_after lo step hi (S k) ->
  (lo <=? hi) = true /\ leaves_after (lo + step) step hi k.
Proof.
  intros [Hin Hout]. split.
  - apply (Hin O). lia.
  - split; [ | exact Hout].
    intros i Hi. apply (Hin (S i)). lia.
Qed.

Section ScanProperties.

Variable self : NavfnPlanner.
Variable world_point : Point.t.
Variable tolerance : float.

Let res : float := getResolution (costmap_ self).
Let lo_x : float := Point.x world_point - tolerance.
Let hi_x : float := Point.x world_point + tolerance.
Let hi_y : float := Point.y world_point + tolerance.

Local Arguments getPointPotential : simpl never.

(** The inner loop, started at [p], when it makes [k] rounds. *)
Lemma valid_scan_x_spec (k : nat) :
  forall (p : Point.t) (fuel : nat),
    leaves_after (Point.x p) res hi_x k ->
    (forall i : nat, (i < k)%nat ->
       exists v : float,
         getPointPotential self (Point.set_x p (sweep (Point.x p) res i)) = Ret v) ->
    (k < fuel)%nat ->
    exists (b : bool) (p' : Point.t),
      valid_scan_x self world_point tolerance fuel p = Ret (b, p')
      /\ Point.y p' = Point.y p /\ Point.z p' = Point.z p
      /\ (b = true <->
          exists i : nat,
            (i < k)%nat
            /\ reachable_at self (Point.set_x p (sweep (Point.x p) res i))).
Proof.
  induction k as [ | k IH]; intros p fuel Hk Hsafe Hf;
    (destruct fuel as [ | fuel]; [lia | ]);
    cbn [valid_scan_x]; fold hi_x.
  - destruct Hk as [_ Hout]. cbn [sweep] in Hout. rewrite Hout.
    exists false, p. repeat split; try discriminate.
    intros [i [Hi _]]. lia.
  - destruct (leaves_after_succ _ _ _ _ Hk) as [Hin Hk'].
    rewrite Hin.
    assert (Ep : Point.set_x p (Point.x p) = p) by (destruct p; reflexivity).
    destruct (Hsafe O ltac:(lia)) as [v Hv]. cbn [sweep] in Hv.
    rewrite Ep in Hv. rewrite Hv. cbn [bind].
    destruct (v <? POT_HIGH) eqn:Ev.
    + exists true, p. repeat split.
      intros _. exists O. split; [lia | ]. cbn [sweep]. rewrite Ep.
      exists v. split; assumption.
    + fold res.
      destruct (IH (Point.set_x p (Point.x p + res)) fuel)
        as (b & p' & Hr & Hy & Hz & Hiff).
      { exact Hk'. }
      { intros i Hi. destruct (Hsafe (S i) ltac:(lia)) as [w Hw].
        exists w. exact Hw. }
      { lia. }
      exists b, p'. split; [exact Hr | ].
      split; [exact Hy | ]. split; [exact Hz | ].
      rewrite Hiff. split.
      * intros [i [Hi Hreach]]. exists (S i). split; [lia | exact Hreach].
      * intros [[ | i] [Hi Hreach]].
        { exfalso. destruct Hreach as [v' [Hv' Hlt]]. cbn [sweep] in Hv'.
          rewrite Ep, Hv in Hv'. congruence. }
        { exists i. split; [lia | exact Hreach]. }
Qed.

(** The outer loop, started at [p], when it makes [ky] rounds and every
    inner loop makes [kx]. *)
Lemma valid_scan_y_spec (kx fuel_x : nat) :
  leaves_after lo_x res hi_x kx ->
  (kx < fuel_x)%nat ->
  forall (ky : nat) (p : Point.t) (fuel : nat),
    leaves_after (Point.y p) res hi_y ky ->
    (forall i j : nat, (i < kx)%nat -> (j < ky)%nat ->
       exists v : float,
         getPointPotential self
           (Point.mk (sweep lo_x res i) (sweep (Point.y p) res j) (Point.z p))
         = Ret v) ->
    (ky < fuel)%nat ->
    exists b : bool,
      valid_scan_y self world_point tolerance fuel_x fuel p = Ret b
      /\ (b = true <->
          exists i j : nat,
            (i < kx)%nat /\ (j < ky)%nat
            /\ reachable_at self
                 (Point.mk (sweep lo_x res i) (sweep (Point.y p) res j) (Point.z p))).
Proof.
  intros Hkx Hfx.
  induction ky as [ | ky IH]; intros p fuel Hk Hsafe Hf;
    (destruct fuel as [ | fuel]; [lia | ]);
    cbn [valid_scan_y]; fold hi_y.
  - destruct Hk as [_ Hout]. cbn [sweep] in Hout. rewrite Hout.
    exists false. split; [reflexivity | ]. split; [discriminate | ].
    intros (i & j & _ & Hj & _). lia.
  - destruct (leaves_after_succ _ _ _ _ Hk) as [Hin Hk'].
    rewrite Hin. fold lo_x.
    destruct (valid_scan_x_spec kx (Point.set_x p lo_x) fuel_x)
      as (b & p1 & Hr & Hy & Hz & Hiff).
    { exact Hkx. }
    { intros i Hi. destruct (Hsafe i O Hi ltac:(lia)) as [v Hv].
      exists v. exact Hv. }
    { exact Hfx. }
    rewrite Hr. cbn [bind].
    cbn [Point.set_x Point.x Point.y Point.z] in Hy, Hz, Hiff.
    destruct b.
    + exists true. split; [reflexivity | ]. split; [intros _ | reflexivity].
      destruct (proj1 Hiff eq_refl) as [i [Hi Hreach]].
      exists i, O. split; [exact Hi | ]. split; [lia | exact Hreach].
    + fold res.
      destruct (IH (Point.set_y p1 (Point.y p1 + res)) fuel) as (b & Hrb & Hiffb).
      { cbn [Point.set_y Point.y]. rewrite Hy. exact Hk'. }
      { intros i j Hi Hj. cbn [Point.set_y Point.y Point.z]. rewrite Hy, Hz.
        destruct (Hsafe i (S j) Hi ltac:(lia)) as [v Hv]. exists v. exact Hv. }
      { lia. }
      exists b. split; [exact Hrb | ].
      rewrite Hiffb. cbn [Point.set_y Point.y Point.z]. rewrite Hy, Hz. split.
      * intros (i & j & Hi & Hj & Hreach). exists i, (S j).
        split; [exact Hi | ]. split; [lia | exact Hreach].
      * intros (i & [ | j] & Hi & Hj & Hreach).
        { exfalso.
          assert (Hex : false = true) by (apply Hiff; exists i; split; assumption).
          discriminate. }
        { exists i, j. split; [exact Hi | ]. split; [lia | exact Hreach]. }
Qed.

End ScanProperties.




(** ** PlannerFacade: makePlan *)

Lemma interpolate_closed_form (start : Pose.t) (xd yd : float) (count : nat) :
  forall (i : Z) (poses : list PoseStamped.t),
    interpolate start xd yd count i poses
    = poses ++
      map (fun k : nat =>
             waypoint
               (Point.x (Pose.position start) + double_of_Z (i + Z.of_nat k) * xd)
               (Point.y (Pose.position start) + double_of_Z (i + Z.of_nat k) * yd))
          (seq 0 count).
Proof.
  induction count as [ | count IH]; intros i poses.
  - simpl. now rewrite app_nil_r.
  - cbn [interpolate]. rewrite IH. unfold push_back.
    rewrite <- app_assoc. f_equal.
    cbn [seq map app]. rewrite Z.add_0_r. f_equal.
    rewrite <- seq_shift, map_map.
    apply map_ext. intros k.
    replace (i + 1 + Z.of_nat k)%Z with (i + Z.of_nat (S k))%Z by lia.
    reflexivity.
Qed.

Lemma worldToMap_setCost (cm : Costmap2D) (mx my cost : Z) (wx wy : float) :
  worldToMap (setCost cm mx my cost) wx wy = worldToMap cm wx wy.
Proof. reflexivity. Qed.

(** With start and goal on the grid and a point count that can be
    converted, [makePlan] returns true and the interpolated points followed
    by the goal; the potential field plays no part. *)
Lemma makePlan_on_grid {solver : NavFnSolver} (self : NavfnPlanner)
    (start goal : Pose.t) (tolerance : float) (plan : Path.t) (cs cg : Z * Z)
    (n : Z) :
  worldToMap (costmap_ self) (Point.x (Pose.position start))
             (Point.y (Pose.position start)) = Ret (Some cs) ->
  worldToMap (costmap_ self) (Point.x (Pose.position goal))
             (Point.y (Pose.position goal)) = Ret (Some cg) ->
  point_count (costmap_ self) start goal = Ret n ->
  exists self',
    makePlan self start goal tolerance plan
    = Ret (true,
           Path.mk (Header.mk (node_now self) (global_frame_ self))
                   (straight_line start goal n ++ [goal_copy goal]),
           self').
Proof.
  intros Hs Hg Hn.
  destruct cs as [sx sy], cg as [gx gy].
  eexists. unfold makePlan. rewrite Hs. cbn [bind].
  change (costmap_ (with_planner (clearRobotCell self sx sy) _))
    with (setCost (costmap_ self) sx sy FREE_SPACE).
  rewrite worldToMap_setCost, Hg. cbn [bind].
  change (getResolution (costmap_ (with_planner _ _)))
    with (getResolution (costmap_ self)).
  unfold point_count in Hn. cbv zeta in Hn. rewrite Hn. cbn [bind].
  cbn [Path.poses Path.set_header Path.set_poses Path.header].
  rewrite interpolate_closed_form, vec_empty_push_back.
  unfold push_back, straight_line. cbn [app negb]. reflexivity.
Qed.



(** C1, evaluated where it fails.  3 x 3 grid, resolution 1, start (0,0),
    goal (2,2), tolerance 1; the goal's cell is lethal and unreached
    ([POT_HIGH]) while its neighbours are reached.  The search that the
    source keeps in a comment would pick (2,1); [makePlan] itself returns
    the straight line (0,0), (1,1), (2,2), ending on the unreached goal. *)
Theorem makePlan_ignores_unreachable_goal :
  let solver := field_solver field_goal_blocked in
  let self := planner_on grid_goal_lethal field_goal_blocked in
  let goal := pose_at 2 2 in
  exists plan' self',
    makePlan self (pose_at 0 0) goal 1 empty_path = Ret (true, plan', self')
    /\ Forall2 at_position (Path.poses plan') [(0, 0); (1, 1); (2, 2)]
    /\ getPointPotential self' (Pose.position goal) = Ret POT_HIGH
    /\ original_goal_search self' goal 1 4 = Ret (true, pose_at 2 1)
    /\ getPointPotential self' (Pose.position (pose_at 2 1)) = Ret 3.
Proof.
  cbv zeta. eexists. eexists.
  split; [vm_compute; reflexivity | ].
  split; [repeat constructor; vm_compute; reflexivity | ].
  repeat split; vm_compute; reflexivity.
Qed.

(** C2, evaluated where it fails.  Same request on a grid whose robot cell
    is walled in; no cell but the robot's own is reached, so no candidate
    within the tolerance of the goal has a potential below [POT_HIGH]
    ([validPointPotential] says so, and the commented-out search finds
    nothing).  [makePlan] still returns true with the three-waypoint
    straight line. *)
Theorem makePlan_succeeds_without_reachable_goal :
  let solver := field_solver field_walled_in in
  let self := planner_on grid_walled_in field_walled_in in
  let goal := pose_at 2 2 in
  exists plan' self',
    makePlan self (pose_at 0 0) goal 1 empty_path = Ret (true, plan', self')
    /\ Forall2 at_position (Path.poses plan') [(0, 0); (1, 1); (2, 2)]
    /\ validPointPotential self' (Pose.position goal) 1 4 = Ret false
    /\ original_goal_search self' goal 1 4 = Ret (false, default_pose).
Proof.
  cbv zeta. eexists. eexists.
  split; [vm_compute; reflexivity | ].
  split; [repeat constructor; vm_compute; reflexivity | ].
  repeat split; vm_compute; reflexivity.
Qed.


(** ** PathExtractor: getPlanFromPotential *)

Lemma to_int_le (u : Z) : (0 <= u)%Z -> (to_int u <= u)%Z.
Proof.
  intros Hu. unfold to_int.
  pose proof (Z.mod_le u (2 ^ 32) Hu ltac:(lia)) as Hle.
  destruct (_ <=? _)%Z; lia.
Qed.

(** The cycle bound never exceeds four times the width. *)
Lemma calcPath_bound_le (cm : Costmap2D) :
  (0 <= getSizeInCellsX cm)%Z -> (calcPath_bound cm <= 4 * getSizeInCellsX cm)%Z.
Proof.
  intros Hw. unfold calcPath_bound.
  pose proof (to_unsigned_range (getSizeInCellsX cm * 4)) as Hu.
  pose proof (to_int_le _ (proj1 Hu)) as Hi.
  assert (Hm : (to_unsigned (getSizeInCellsX cm * 4) <= getSizeInCellsX cm * 4)%Z).
  { unfold to_unsigned. apply Z.mod_le; lia. }
  lia.
Qed.

Lemma calcPath_bound_small (cm : Costmap2D) :
  (0 <= getSizeInCellsX cm)%Z -> (getSizeInCellsX cm * 4 <= INT_MAX)%Z ->
  calcPath_bound cm = (4 * getSizeInCellsX cm)%Z.
Proof.
  unfold calcPath_bound, to_int, to_unsigned, INT_MAX. intros Hlo Hhi.
  rewrite Z.mod_mod by lia.
  rewrite Z.mod_small by lia.
  destruct (Z.leb_spec (getSizeInCellsX cm * 4) (2 ^ 31 - 1)); lia.
Qed.

Lemma cell_eqb_eq (a b : Z * Z) : PathExtractor.cell_eqb a b = true -> a = b.
Proof.
  destruct a as [ax ay], b as [bx by']. unfold PathExtractor.cell_eqb.
  cbn [fst snd]. rewrite andb_true_iff, !Z.eqb_eq. intros [-> ->]. reflexivity.
Qed.

Lemma cell_eqb_neq (a b : Z * Z) : PathExtractor.cell_eqb a b = false -> a <> b.
Proof.
  intros E ->. destruct b as [bx by']. unfold PathExtractor.cell_eqb in E.
  cbn [fst snd] in E. rewrite !Z.eqb_refl in E. discriminate.
Qed.

(** A descent that succeeds took at most [bound] steps and stands on the
    source. *)
Lemma descend_Some (pl : NavFn) (bound : nat) :
  forall (c : Z * Z) (cells : list (Z * Z)),
    PathExtractor.descend pl bound c = Some cells ->
    (1 <= List.length cells <= S bound)%nat
    /\ walk pl (List.length cells - 1) c = Some (source pl).
Proof.
  induction bound as [ | bound IH]; intros c cells; cbn [PathExtractor.descend];
    destruct (PathExtractor.cell_eqb c (source pl)) eqn:E.
  - intros H. assert (Ec : cells = [c]) by congruence. subst cells.
    cbn. split; [lia | ]. f_equal. now apply cell_eqb_eq.
  - discriminate.
  - intros H. assert (Ec : cells = [c]) by congruence. subst cells.
    cbn. split; [lia | ]. f_equal. now apply cell_eqb_eq.
  - destruct (PathExtractor.step pl c) as [c' | ] eqn:Es; [ | discriminate].
    destruct (PathExtractor.descend pl bound c') as [rest | ] eqn:Ed;
      [ | discriminate].
    cbn [option_map]. intros H.
    assert (Ec : cells = c :: rest) by congruence. subst cells.
    destruct (IH c' rest Ed) as [Hlen Hwalk].
    cbn [List.length]. split; [lia | ].
    replace (S (List.length rest) - 1)%nat with (S (List.length rest - 1))%nat
      by lia.
    cbn [walk]. rewrite Es. exact Hwalk.
Qed.

(** A descent that fails met a plateau or ran out of steps: within the
    bound the walk never stands on the source. *)
Lemma descend_None (pl : NavFn) (bound : nat) :
  forall c : Z * Z,
    PathExtractor.descend pl bound c = None ->
    forall k : nat, (k <= bound)%nat -> walk pl k c <> Some (source pl).
Proof.
  induction bound as [ | bound IH]; intros c; cbn [PathExtractor.descend];
    destruct (PathExtractor.cell_eqb c (source pl)) eqn:E; try discriminate;
    intros Hd k Hk.
  - assert (k = O) by lia. subst k. cbn [walk].
    intros H. apply (cell_eqb_neq _ _ E). congruence.
  - destruct k as [ | k]; cbn [walk].
    + intros H. apply (cell_eqb_neq _ _ E). congruence.
    + destruct (PathExtractor.step pl c) as [c' | ] eqn:Es; [ | discriminate].
      apply IH; [ | lia].
      destruct (PathExtractor.descend pl bound c'); [discriminate | reflexivity].
Qed.

Lemma firstn_snoc {A : Type} (l : list A) (i : nat) (a : A) :
  nth_error l i = Some a -> firstn (S i) l = firstn i l ++ [a].
Proof.
  revert i. induction l as [ | b l IH]; intros [ | i] H; simpl in H;
    try discriminate.
  - injection H as ->. reflexivity.
  - cbn [firstn app]. f_equal. now apply IH.
Qed.

Lemma nth_error_combine_Some {A B : Type} (xs : list A) (ys : list B)
    (i : nat) (x : A) (y : B) :
  nth_error xs i = Some x -> nth_error ys i = Some y ->
  nth_error (combine xs ys) i = Some (x, y).
Proof.
  revert ys i. induction xs as [ | a xs IH]; intros [ | b ys] [ | i] Hx Hy;
    simpl in *; try discriminate.
  - injection Hx as ->. injection Hy as ->. reflexivity.
  - now apply IH.
Qed.

Lemma vec_at_nat {A : Type} (v : list A) (i : nat) :
  (i < List.length v)%nat ->
  exists a, nth_error v i = Some a /\ vec_at v (Z.of_nat i) = Ret a.
Proof.
  intros Hlt. unfold vec_at.
  destruct (Z.ltb_spec (Z.of_nat i) 0) as [Hneg | _]; [lia | ].
  rewrite Nat2Z.id.
  destruct (nth_error v i) as [a | ] eqn:E.
  - exists a. split; reflexivity.
  - apply nth_error_None in E. lia.
Qed.

Lemma path_to_world_closed_form (cm : Costmap2D) (xs ys : list float) (count : nat) :
  (count <= List.length xs)%nat -> (count <= List.length ys)%nat ->
  forall poses : list PoseStamped.t,
    path_to_world cm xs ys count poses
    = Ret (poses ++ rev (map (path_waypoint cm) (firstn count (combine xs ys)))).
Proof.
  induction count as [ | count IH]; intros Hx Hy poses.
  - simpl. now rewrite app_nil_r.
  - destruct (vec_at_nat xs count) as (xi & Exi & Hxi); [lia | ].
    destruct (vec_at_nat ys count) as (yi & Eyi & Hyi); [lia | ].
    cbn [path_to_world]. rewrite Hxi, Hyi. cbn [bind].
    unfold mapToWorld at 1. rewrite IH by lia.
    rewrite (firstn_snoc _ _ _ (nth_error_combine_Some _ _ _ _ _ Exi Eyi)).
    rewrite map_app, rev_app_distr. unfold push_back.
    rewrite <- app_assoc. reflexivity.
Qed.

(** What [getPlanFromPotential] does with the extractor of the spec, for a
    goal on the grid: with no path it returns false and clears the plan;
    with the path [cells] it returns true and as many waypoints. *)
Lemma getPlanFromPotential_traced {solver : NavFnSolver} (self : NavfnPlanner)
    (goal : Pose.t) (plan : Path.t) (mx my : Z) :
  let cm := costmap_ self in
  let bound := calcPath_bound cm in
  let pl := PathExtractor.setStart (to_int mx, to_int my) (planner_ self) in
  let traced :=
    if (bound <? 0)%Z then None
    else PathExtractor.descend pl (Z.to_nat bound) (seed pl) in
  (forall c p, setStart c p = PathExtractor.setStart c p) ->
  (forall n p, calcPath n p = PathExtractor.calcPath n p) ->
  worldToMap cm (Point.x (Pose.position goal)) (Point.y (Pose.position goal))
    = Ret (Some (mx, my)) ->
  match traced with
  | None =>
      exists self',
        getPlanFromPotential self goal plan
        = Ret (false, Path.set_poses plan [], self')
  | Some cells =>
      exists plan' self',
        getPlanFromPotential self goal plan = Ret (true, plan', self')
        /\ List.length (Path.poses plan') = List.length cells
  end.
Proof.
  intros cm bound pl traced Hss Hcp Hw.
  unfold getPlanFromPotential. fold cm. rewrite Hw. cbn [bind].
  rewrite Hss, Hcp. fold bound pl. unfold PathExtractor.calcPath.
  fold traced. destruct traced as [cells | ] eqn:Et.
  - assert (Hlen : (1 <= List.length cells)%nat).
    { unfold traced in Et. destruct (bound <? 0)%Z; [discriminate | ].
      apply descend_Some in Et. lia. }
    destruct (Z.eqb_spec (vec_size cells) 0) as [E0 | _];
      [unfold vec_size in E0; lia | ].
    cbn [planner_ costmap_ with_planner node_now global_frame_ getPathX
         getPathY getPathLen Path.poses Path.set_header Path.set_poses].
    unfold vec_size. rewrite Nat2Z.id.
    rewrite path_to_world_closed_form by (rewrite length_map; lia).
    cbn [bind app Path.poses Path.header].
    set (poses := rev (map (path_waypoint _) _)).
    assert (Hposes : List.length poses = List.length cells).
    { unfold poses. rewrite length_rev, length_map, length_firstn.
      rewrite length_combine, !length_map. lia. }
    assert (Hne : vec_empty poses = false).
    { destruct poses; [cbn in Hposes; lia | reflexivity]. }
    rewrite Hne. cbn [negb].
    eexists. eexists. split; [reflexivity | exact Hposes].
  - cbn [Z.eqb]. eexists. reflexivity.
Qed.

(** C7.  With the path extractor of the spec behind [calcPath] and
    [setStart], and a goal on the grid, [getPlanFromPotential] hands the
    extractor a step bound of at most four times the larger grid dimension
    (it is four times the width, as long as that fits an [int]); the call
    returns, whatever the potential field holds; if within the bound the
    descent from the goal's cell never stands on the source (the bound is
    exceeded, or a plateau stops the descent) it returns false and an empty
    plan, as it does a fortiori when the descent needs more than four times
    the larger dimension; and if the descent reaches the source within the
    bound it returns true and a plan with one waypoint per cell, at most
    the bound plus one. *)
Theorem getPlanFromPotential_bound :
  forall (solver : NavFnSolver) (self : NavfnPlanner) (goal : Pose.t)
         (plan : Path.t) (mx my : Z),
    let cm := costmap_ self in
    let bound := calcPath_bound cm in
    let pl := PathExtractor.setStart (to_int mx, to_int my) (planner_ self) in
    (forall c p, setStart c p = PathExtractor.setStart c p) ->
    (forall n p, calcPath n p = PathExtractor.calcPath n p) ->
    worldToMap cm (Point.x (Pose.position goal)) (Point.y (Pose.position goal))
      = Ret (Some (mx, my)) ->
    (bound <= 4 * Z.max (getSizeInCellsX cm) (getSizeInCellsY cm))%Z
    /\ ((getSizeInCellsX cm * 4 <= INT_MAX)%Z ->
        bound = (4 * getSizeInCellsX cm)%Z)
    /\ (exists r, getPlanFromPotential self goal plan = Ret r)
    /\ ((forall k : nat,
           (Z.of_nat k <= bound)%Z -> walk pl k (seed pl) <> Some (source pl)) ->
        exists self',
          getPlanFromPotential self goal plan
          = Ret (false, Path.set_poses plan [], self'))
    /\ ((forall k : nat,
           (Z.of_nat k <= 4 * Z.max (getSizeInCellsX cm) (getSizeInCellsY cm))%Z ->
           walk pl k (seed pl) <> Some (source pl)) ->
        exists self',
          getPlanFromPotential self goal plan
          = Ret (false, Path.set_poses plan [], self'))
    /\ ((exists k : nat,
           (Z.of_nat k <= bound)%Z /\ walk pl k (seed pl) = Some (source pl)) ->
        exists plan' self',
          getPlanFromPotential self goal plan = Ret (true, plan', self')
          /\ (1 <= vec_size (Path.poses plan') <= bound + 1)%Z).
Proof.
  intros solver self goal plan mx my cm bound pl Hss Hcp Hw.
  destruct (worldToMap_Some_range _ _ _ _ _ Hw) as [Hmx _].
  assert (Hwidth : (0 <= getSizeInCellsX cm)%Z) by lia.
  pose proof (getPlanFromPotential_traced self goal plan mx my Hss Hcp Hw)
    as Htr. cbv zeta in Htr. fold cm bound pl in Htr.
  assert (Hcap : (bound <= 4 * Z.max (getSizeInCellsX cm) (getSizeInCellsY cm))%Z).
  { pose proof (calcPath_bound_le cm Hwidth). unfold bound. lia. }
  assert (Hfail : (forall k : nat,
                      (Z.of_nat k <= bound)%Z ->
                      walk pl k (seed pl) <> Some (source pl)) ->
                  exists self',
                    getPlanFromPotential self goal plan
                    = Ret (false, Path.set_poses plan [], self')).
  { intros Hnever.
    destruct (Z.ltb_spec bound 0) as [Hneg | Hpos]; [exact Htr | ].
    destruct (PathExtractor.descend pl (Z.to_nat bound) (seed pl))
      as [cells | ] eqn:Ed; [ | exact Htr].
    exfalso. destruct (descend_Some _ _ _ _ Ed) as [Hlen Hwalk].
    apply (Hnever (List.length cells - 1)%nat); [lia | exact Hwalk]. }
  split; [exact Hcap | ].
  split; [intros Hfit; apply calcPath_bound_small; assumption | ].
  split; [ | split; [exact Hfail | split]].
  - destruct (bound <? 0)%Z.
    + destruct Htr as [self' H]. eexists. exact H.
    + destruct (PathExtractor.descend pl (Z.to_nat bound) (seed pl)).
      * destruct Htr as (plan' & self' & H & _). eexists. exact H.
      * destruct Htr as [self' H]. eexists. exact H.
  - intros Hnever. apply Hfail. intros k Hk. apply Hnever. lia.
  - intros (k & Hk & Hwalk).
    destruct (Z.ltb_spec bound 0) as [Hneg | Hpos]; [lia | ].
    destruct (PathExtractor.descend pl (Z.to_nat bound) (seed pl))
      as [cells | ] eqn:Ed.
    + destruct Htr as (plan' & self' & H & Hlen).
      exists plan', self'. split; [exact H | ].
      destruct (descend_Some _ _ _ _ Ed) as [Hcells _].
      unfold vec_size. lia.
    + exfalso. apply (descend_None _ _ _ Ed k); [lia | exact Hwalk].
Qed.

(** ** Instances *)

(** C3 at work, the strict case: from (0,0) the last waypoint (2,0) is
    farther than the goal (1,0), and the last waypoint is replaced. *)
Lemma smoothApproachToGoal_strict_witness :
  let stl := waypoint 0 0 in
  let last := waypoint 2 0 in
  let goal := pose_at 1 0 in
  (squared_distance goal (PoseStamped.pose stl)
     <? squared_distance (PoseStamped.pose last) (PoseStamped.pose stl)) = true
  /\ smoothApproachToGoal goal (Path.mk Header.empty ([] ++ [stl; last]))
     = Ret (Path.mk Header.empty ([] ++ [stl; PoseStamped.set_pose last goal])).
Proof.
  cbv zeta. split; [reflexivity | ].
  apply (proj1 (smoothApproachToGoal_strict (pose_at 1 0) Header.empty []
                  (waypoint 0 0) (waypoint 2 0))).
  reflexivity.
Defined.

(** C5 at work on the grid of 5 cm cells, 8 cells a side: 0.125 / 0.05 is
    the double 2.5 and rounds to column 3; 0.375 / 0.05 is 7.5 and rounds to
    row 8, outside the grid, so the point (0.125, 0.375) is rejected. *)
Lemma worldToMap_spec_witness :
  let cm := grid_5cm in
  cell_of 0.125 (getOriginX cm) (getResolution cm) = Some 3%Z
  /\ cell_of 0.375 (getOriginY cm) (getResolution cm) = Some 8%Z
  /\ (worldToMap cm 0.125 0.375 = Ret None <->
      (0.125 <? getOriginX cm) = true \/ (0.375 <? getOriginY cm) = true \/
      ~ ((0 <= 3 < getSizeInCellsX cm)%Z /\ (0 <= 8 < getSizeInCellsY cm)%Z))
  /\ (worldToMap cm 0.125 0.375 = Ret None
      \/ worldToMap cm 0.125 0.375 = Ret (Some (3, 8)%Z)).
Proof.
  cbv zeta. split; [vm_compute; reflexivity | ].
  split; [vm_compute; reflexivity | ].
  apply (worldToMap_spec grid_5cm 0.125 0.375 3 8).
  - right. vm_compute. reflexivity.
  - intros _ _.
    split; [vm_compute; reflexivity | ].
    split; [vm_compute; reflexivity | ].
    split; split; vm_compute; discriminate.
Defined.

(** C6 at work: on the 3 x 3 unit grid (1.25, 2.25) maps to cell (1, 2) and
    back to (1, 2); every operation on the way is exact, and the point that
    comes back is within half a cell of where it started. *)
Lemma mapToWorld_worldToMap_roundtrip_witness :
  let cm := free_unit_grid 3 3 in
  worldToMap cm 1.25 2.25 = Ret (Some (1, 2)%Z)
  /\ mapToWorld cm (double_of_Z 1) (double_of_Z 2) = (1, 2)
  /\ exists vw vo vr vd vq vt vb : Q,
       axis_values 1.25 0 1 1 vw vo vr vd vq vt vb
       /\ (rounding_error 1 vw vo vr vd vq vt vb == 0)%Q
       /\ (Qabs (vb - vw) <= vr / 2)%Q.
Proof.
  cbv zeta. split; [vm_compute; reflexivity | ].
  split; [vm_compute; reflexivity | ].
  do 7 eexists.
  match goal with
  | |- ?A /\ _ =>
      assert (Hv : A)
        by (unfold axis_values;
            do 6 (split; [vm_compute; reflexivity | ]); vm_compute; reflexivity)
  end.
  split; [exact Hv | ].
  match goal with
  | |- ?E /\ _ => assert (He : E) by (vm_compute; reflexivity)
  end.
  split; [exact He | ].
  refine (proj2 (proj1 (proj2 (proj2
            (mapToWorld_worldToMap_roundtrip (free_unit_grid 3 3) 1.25 2.25 1 2
               _ _))) _ _ _ _ _ _ _ Hv _) He).
  - right. vm_compute. reflexivity.
  - vm_compute. reflexivity.
  - reflexivity.
Defined.

(** C7 at work on the 3 x 3 unit grid, bound 12.  On the open field the
    descent from the goal's cell (2,2) reaches the source (0,0) in two
    steps and the plan has three waypoints. *)
Lemma getPlanFromPotential_bound_witness :
  let solver := field_solver field_open in
  let self := planner_on (free_unit_grid 3 3) field_open in
  let pl := PathExtractor.setStart (to_int 2, to_int 2) (planner_ self) in
  calcPath_bound (costmap_ self) = 12%Z
  /\ walk pl 2 (seed pl) = Some (source pl)
  /\ exists plan' self',
       getPlanFromPotential self (pose_at 2 2) empty_path = Ret (true, plan', self')
       /\ (1 <= vec_size (Path.poses plan') <= 12 + 1)%Z.
Proof.
  cbv zeta. split; [reflexivity | ]. split; [vm_compute; reflexivity | ].
  refine (proj2 (proj2 (proj2 (proj2 (proj2
            (getPlanFromPotential_bound (field_solver field_open)
               (planner_on (free_unit_grid 3 3) field_open)
               (pose_at 2 2) empty_path 2 2 _ _ _))))) _).
  - intros c p. reflexivity.
  - intros n p. reflexivity.
  - vm_compute. reflexivity.
  - exists 2%nat. split; [vm_compute; discriminate | vm_compute; reflexivity].
Defined.

(** The same request on the field with a plateau: no neighbour of (2,2) is
    strictly lower, the descent stops at once and [getPlanFromPotential]
    returns false and an empty plan; and on the open field with the source
    out of reach of the bound (a grid one cell wide has bound 4 whatever its
    height) it does so too. *)
Lemma getPlanFromPotential_fails :
  (let solver := field_solver field_plateau in
   let self := planner_on (free_unit_grid 3 3) field_plateau in
   PathExtractor.step (planner_ self) (2, 2)%Z = None
   /\ exists self',
        getPlanFromPotential self (pose_at 2 2) empty_path
        = Ret (false, empty_path, self'))
  /\
  (let field := [0; 1; 2; 3; 4; 5; 6] in
   let solver := field_solver field in
   let self := planner_on (free_unit_grid 1 7) field in
   calcPath_bound (costmap_ self) = 4%Z
   /\ walk (planner_ self) 6 (0, 6)%Z = Some (0, 0)%Z
   /\ exists self',
        getPlanFromPotential self (pose_at 0 6) empty_path
        = Ret (false, empty_path, self')).
Proof.
  cbv zeta. split.
  - split; [vm_compute; reflexivity | ].
    eexists. vm_compute. reflexivity.
  - split; [vm_compute; reflexivity | ].
    split; [vm_compute; reflexivity | ].
    eexists. vm_compute. reflexivity.
Qed.



(** The sweep is the one of the doubles.  At resolution 0.1, tolerance 0.3
    and the point (0.5, 0), the seventh x candidate is 0.7999999999999999,
    which passes the test against 0.5 + 0.3 and lies in column 8; with only
    that column reached, [validPointPotential] returns true. *)
Lemma validPointPotential_sweep_in_doubles :
  let cm := free_grid 10 1 0.1 0 (-0.3) in
  let field := [POT_HIGH; POT_HIGH; POT_HIGH; POT_HIGH; POT_HIGH;
                POT_HIGH; POT_HIGH; POT_HIGH; 0; POT_HIGH] in
  let self := planner_on cm field in
  sweep (0.5 - 0.3) 0.1 6 = 0.79999999999999993
  /\ (sweep (0.5 - 0.3) 0.1 6 <=? 0.5 + 0.3) = true
  /\ worldToMap cm (sweep (0.5 - 0.3) 0.1 6) (-0.3) = Ret (Some (8, 0)%Z)
  /\ validPointPotential self (Point.mk 0.5 0 0) 0.3 8 = Ret true.
Proof.
  cbv zeta. repeat split; vm_compute; reflexivity.
Qed.

(** C10 at work: (-1, 0) lies left of the origin of the 3 x 3 grid. *)
Lemma getPointPotential_off_grid_witness :
  let self := planner_on (free_unit_grid 3 3) field_goal_blocked in
  let p := Point.mk (-1) 0 0 in
  worldToMap (costmap_ self) (Point.x p) (Point.y p) = Ret None
  /\ getPointPotential self p = Ret DBL_MAX.
Proof.
  cbv zeta. split; [vm_compute; reflexivity | ].
  apply (getPointPotential_off_grid
           (planner_on (free_unit_grid 3 3) field_goal_blocked)
           (Point.mk (-1) 0 0)).
  vm_compute. reflexivity.
Defined.

(** * Further properties *)

(** ** PathSmoother, continued *)

Lemma last_two {A : Type} (l : list A) :
  (2 <= List.length l)%nat -> exists pre a b, l = pre ++ [a; b].
Proof.
  intros Hlen.
  destruct (exists_last (l := l)) as [l1 [b E1]];
    [intros ->; simpl in Hlen; lia | ].
  subst l. rewrite length_app in Hlen. simpl in Hlen.
  destruct (exists_last (l := l1)) as [pre [a E2]];
    [intros ->; simpl in Hlen; lia | ].
  subst l1. exists pre, a, b. rewrite <- app_assoc. reflexivity.
Qed.

(** X4.  [smoothApproachToGoal] needs a path of at least two waypoints: it
    reads [plan.poses.end()[-2]], so on an empty or one-waypoint path its
    behaviour is undefined, and on every longer path it returns. *)
Theorem smoothApproachToGoal_needs_two_waypoints :
  forall (goal : Pose.t) (plan : Path.t),
    ((List.length (Path.poses plan) < 2)%nat ->
     smoothApproachToGoal goal plan = Stuck)
    /\ ((2 <= List.length (Path.poses plan))%nat ->
        exists plan', smoothApproachToGoal goal plan = Ret plan').
Proof.
  intros goal [hdr poses]. cbn [Path.poses]. split; intros Hlen.
  - destruct poses as [ | a [ | b poses]]; simpl in Hlen; try lia; reflexivity.
  - destruct (last_two poses Hlen) as (pre & a & b & ->).
    rewrite smoothApproachToGoal_unfold.
    destruct (_ <? _); eexists; reflexivity.
Qed.

(** X5.  What [smoothApproachToGoal] keeps and what it changes: whenever it
    returns, the plan's header is untouched, every waypoint but the last of
    the input stays where it was, the path has the same length or one
    waypoint more, and its final waypoint carries the goal pose. *)
Theorem smoothApproachToGoal_postconditions :
  forall (goal : Pose.t) (plan plan' : Path.t) (d : PoseStamped.t),
    smoothApproachToGoal goal plan = Ret plan' ->
    let n := List.length (Path.poses plan) in
    Path.header plan' = Path.header plan
    /\ firstn (n - 1) (Path.poses plan') = firstn (n - 1) (Path.poses plan)
    /\ (List.length (Path.poses plan') = n
        \/ List.length (Path.poses plan') = S n)
    /\ PoseStamped.pose (last (Path.poses plan') d) = goal.
Proof.
  intros goal [hdr poses] plan' d Hret n.
  assert (Hlen : (2 <= List.length poses)%nat).
  { destruct poses as [ | a [ | b poses]]; simpl; try lia; discriminate. }
  destruct (last_two poses Hlen) as (pre & a & b & E).
  subst poses. rewrite smoothApproachToGoal_unfold in Hret.
  assert (En : (n - 1 = List.length (pre ++ [a]))%nat).
  { unfold n. simpl. rewrite !length_app. simpl. lia. }
  assert (Efirst : forall c rest,
             firstn (n - 1) (pre ++ a :: c :: rest) = pre ++ [a]).
  { intros c rest. rewrite En.
    replace (pre ++ a :: c :: rest) with ((pre ++ [a]) ++ c :: rest)
      by (rewrite <- app_assoc; reflexivity).
    rewrite firstn_app, Nat.sub_diag, firstn_all. simpl.
    now rewrite app_nil_r. }
  destruct (_ <? _).
  - assert (E : plan' = Path.mk hdr (pre ++ [a; PoseStamped.set_pose b goal]))
      by congruence.
    subst plan'. cbn [Path.header Path.poses].
    split; [reflexivity | ]. split; [now rewrite !Efirst | ].
    split; [left; unfold n; cbn [Path.poses]; rewrite !length_app; reflexivity | ].
    replace (pre ++ [a; PoseStamped.set_pose b goal])
      with ((pre ++ [a]) ++ [PoseStamped.set_pose b goal])
      by (rewrite <- app_assoc; reflexivity).
    rewrite last_last. reflexivity.
  - assert (E : plan' = Path.mk hdr (pre ++ [a; b; goal_copy goal]))
      by congruence.
    subst plan'. cbn [Path.header Path.poses].
    split; [reflexivity | ]. split; [now rewrite !Efirst | ].
    split; [right; unfold n; cbn [Path.poses]; rewrite !length_app; simpl; lia | ].
    replace (pre ++ [a; b; goal_copy goal])
      with ((pre ++ [a; b]) ++ [goal_copy goal])
      by (rewrite <- app_assoc; reflexivity).
    rewrite last_last. reflexivity.
Qed.

(** ** Point queries, continued *)

Lemma vec_at_in_range {A : Type} (v : list A) (i : Z) :
  (0 <= i < vec_size v)%Z -> exists a, vec_at v i = Ret a.
Proof.
  unfold vec_at, vec_size. intros [Hlo Hhi].
  destruct (Z.ltb_spec i 0) as [Hneg | _]; [lia | ].
  destruct (nth_error v (Z.to_nat i)) as [a | ] eqn:E.
  - now exists a.
  - apply nth_error_None in E. lia.
Qed.

(** X6.  The potential of a point on the grid is read at the row-major
    index of its cell: when [worldToMap] maps the point to (mx, my), the
    solver's row length is the grid's width and the grid has at most 2^32
    cells, [getPointPotential] reads the potential array at
    [my * width + mx], an index below the number of cells (no wrap-around
    of the [unsigned int] product), and returns when the array covers the
    grid. *)
Theorem getPointPotential_of_cell :
  forall (self : NavfnPlanner) (p : Point.t) (mx my : Z),
    let cm := costmap_ self in
    let index := (my * getSizeInCellsX cm + mx)%Z in
    worldToMap cm (Point.x p) (Point.y p) = Ret (Some (mx, my)) ->
    nx (planner_ self) = getSizeInCellsX cm ->
    (getSizeInCellsX cm * getSizeInCellsY cm <= 2 ^ 32)%Z ->
    getPointPotential self p = vec_at (potarr (planner_ self)) index
    /\ (0 <= index < getSizeInCellsX cm * getSizeInCellsY cm)%Z
    /\ ((getSizeInCellsX cm * getSizeInCellsY cm
         <= vec_size (potarr (planner_ self)))%Z ->
        exists v, getPointPotential self p = Ret v).
Proof.
  intros self p mx my cm index Hw Hnx Hcells.
  destruct (worldToMap_Some_range _ _ _ _ _ Hw) as [Hmx Hmy].
  fold cm in Hmx, Hmy.
  assert (Hidx : (0 <= index < getSizeInCellsX cm * getSizeInCellsY cm)%Z)
    by (unfold index; nia).
  assert (Hpot : getPointPotential self p = vec_at (potarr (planner_ self)) index).
  { unfold getPointPotential. fold cm. rewrite Hw. cbn [bind]. rewrite Hnx.
    unfold to_unsigned. fold index. rewrite Z.mod_small by lia. reflexivity. }
  split; [exact Hpot | ]. split; [exact Hidx | ].
  intros Hcover. rewrite Hpot. apply vec_at_in_range. lia.
Qed.

(** X7.  With tolerance zero (the declared default of the [tolerance]
    parameter), coordinates that are no NaN and a resolution that one
    addition carries past each of them, [validPointPotential] tests the
    point itself and nothing else: it returns whether the point's own
    potential is strictly below [POT_HIGH]; so does the one-argument
    overload when the member [tolerance_] is zero. *)
Theorem validPointPotential_zero_tolerance :
  forall (self : NavfnPlanner) (p : Point.t) (v : float) (fuel : nat),
    let res := getResolution (costmap_ self) in
    (Point.x p <=? Point.x p + 0) = true ->
    (Point.y p <=? Point.y p + 0) = true ->
    (Point.x p + res <=? Point.x p + 0) = false ->
    (Point.y p + res <=? Point.y p + 0) = false ->
    getPointPotential self p = Ret v ->
    (2 <= fuel)%nat ->
    validPointPotential self p 0 fuel = Ret (v <? POT_HIGH)
    /\ (tolerance_ self = 0 ->
        validPointPotential_default self p fuel = Ret (v <? POT_HIGH)).
Proof.
  intros self p v fuel res Hx Hy Hsx Hsy Hv Hfuel.
  assert (Ep : Point.mk (Point.x p - 0) (Point.y p - 0) (Point.z p) = p)
    by (rewrite !sub_zero; destruct p; reflexivity).
  assert (Hone : forall lo hi : float,
             (lo - 0 <=? hi) = true -> (lo + res <=? hi) = false ->
             leaves_after (lo - 0) res hi 1).
  { intros lo hi Hin Hout. split.
    - intros i Hi. assert (i = O) by lia. subst i. exact Hin.
    - cbn [sweep]. rewrite sub_zero. exact Hout. }
  assert (Hmain : validPointPotential self p 0 fuel = Ret (v <? POT_HIGH)).
  { destruct (valid_scan_y_spec self p 0 1 fuel
                (Hone _ _ ltac:(rewrite sub_zero; exact Hx) Hsx) Hfuel
                1 (Point.set_y p (Point.y p - 0)) fuel)
      as (b & Hb & Hiff).
    - cbn [Point.set_y Point.y].
      exact (Hone _ _ ltac:(rewrite sub_zero; exact Hy) Hsy).
    - intros i j Hi Hj. assert (i = O) by lia. assert (j = O) by lia.
      subst i j. cbn [sweep Point.set_y Point.y Point.z]. rewrite Ep.
      exists v. exact Hv.
    - exact Hfuel.
    - unfold validPointPotential. rewrite Hb. f_equal.
      destruct b.
      + destruct (proj1 Hiff eq_refl) as (i & j & Hi & Hj & w & Hw & Hlt).
        assert (i = O) by lia. assert (j = O) by lia. subst i j.
        cbn [sweep Point.set_y Point.y Point.z] in Hw. rewrite Ep in Hw.
        assert (w = v) by congruence. subst w. now rewrite Hlt.
      + destruct (v <? POT_HIGH) eqn:Ev; [ | reflexivity].
        apply Hiff. exists O, O. split; [lia | ]. split; [lia | ].
        cbn [sweep Point.set_y Point.y Point.z]. rewrite Ep.
        exists v. split; assumption. }
  split; [exact Hmain | ].
  intros Et. unfold validPointPotential_default. rewrite Et. exact Hmain.
Qed.

(** A difference with a NaN is a NaN, and a NaN passes no test. *)
Lemma sub_nan (a : float) : a - nan = nan.
Proof.
  apply Prim2SF_inj. rewrite sub_spec.
  change (Prim2SF nan) with S754_nan.
  destruct (Prim2SF a) as [[ | ] | [ | ] | | s m e]; reflexivity.
Qed.

Lemma nan_leb (a : float) : (nan <=? a) = false.
Proof. rewrite leb_spec. reflexivity. Qed.

(** X8.  An empty window: when the first test of the outer loop fails,
    [p.y - t] not being [<= p.y + t] in doubles, [validPointPotential]
    returns false at once, without reading any potential, whatever the grid,
    the resolution and the potential array.  A NaN tolerance is such a
    case, for every point. *)
Theorem validPointPotential_empty_window :
  forall (self : NavfnPlanner) (p : Point.t) (tolerance : float) (fuel : nat),
    (1 <= fuel)%nat ->
    ((Point.y p - tolerance <=? Point.y p + tolerance) = false ->
     validPointPotential self p tolerance fuel = Ret false)
    /\ validPointPotential self p nan fuel = Ret false.
Proof.
  intros self p tol fuel Hfuel.
  destruct fuel as [ | fuel]; [lia | ].
  unfold validPointPotential. cbn [valid_scan_y]. cbn [Point.set_y Point.y].
  split.
  - intros E. now rewrite E.
  - now rewrite sub_nan, nan_leb.
Qed.

(** ** CoordinateMapper, continued *)

(** X1.  Which world points map to a given cell.  On a grid of at most 2^31
    cells a side, [worldToMap] returns the cell (mx, my) exactly for the
    points that are not below the origin and whose double quotients
    [(x - origin.x) / resolution] and [(y - origin.y) / resolution] are
    finite and lie in the half-open interval of length one centred on the
    index: cells are centred on the lattice points, and a halfway quotient
    goes to the higher cell. *)
Theorem worldToMap_cell_extent :
  forall (cm : Costmap2D) (wx wy : float) (mx my : Z),
    let res := getResolution cm in
    (getSizeInCellsX cm <= 2 ^ 31)%Z -> (getSizeInCellsY cm <= 2 ^ 31)%Z ->
    (worldToMap cm wx wy = Ret (Some (mx, my)) <->
     (wx <? getOriginX cm) = false /\ (wy <? getOriginY cm) = false
     /\ (0 <= mx < getSizeInCellsX cm)%Z /\ (0 <= my < getSizeInCellsY cm)%Z
     /\ exists qx qy : Q,
          double_value ((wx - getOriginX cm) / res) = Some qx
          /\ double_value ((wy - getOriginY cm) / res) = Some qy
          /\ rounds_to qx mx /\ rounds_to qy my).
Proof.
  intros cm wx wy mx my res Hsx Hsy. split.
  - intros Hw.
    destruct (worldToMap_Some_inv cm wx wy mx my (or_introl (conj Hsx Hsy)) Hw)
      as (Hx & Hy & Hcx & Hcy & Hmx & Hmy).
    unfold cell_of in Hcx, Hcy. fold res in Hcx, Hcy.
    destruct (double_value ((wx - getOriginX cm) / res)) as [qx | ];
      [ | discriminate].
    destruct (double_value ((wy - getOriginY cm) / res)) as [qy | ];
      [ | discriminate].
    cbn [option_map] in Hcx, Hcy.
    repeat (split; [assumption | ]).
    exists qx, qy. repeat (split; [reflexivity | ]).
    split; apply round_half_away_iff; try lia; congruence.
  - intros (Hx & Hy & Hmx & Hmy & qx & qy & Hqx & Hqy & Rx & Ry).
    apply round_half_away_iff in Rx; [ | lia].
    apply round_half_away_iff in Ry; [ | lia].
    rewrite (worldToMap_eval cm wx wy mx my Hx Hy);
      try (unfold cell_of; fold res; rewrite ?Hqx, ?Hqy; cbn [option_map];
           congruence);
      try (unfold INT_MIN, INT_MAX; lia).
    rewrite !to_unsigned_nonneg by (unfold INT_MAX; lia).
    destruct (Z.ltb_spec mx (getSizeInCellsX cm)); [ | lia].
    destruct (Z.ltb_spec my (getSizeInCellsY cm)); [ | lia].
    reflexivity.
Qed.

(** X3.  [worldToMap] keeps the order of points on each axis: of two points
    that both map to cells (resolution positive), the one with the larger
    x has the larger or equal cell column, and likewise for y and rows.
    The double subtraction, the double division by the positive resolution,
    [std::round] and the conversions each keep the order. *)
Theorem worldToMap_monotone :
  forall (cm : Costmap2D) (wx wy wx' wy' : float) (mx my mx' my' : Z),
    (0 <? getResolution cm) = true ->
    worldToMap cm wx wy = Ret (Some (mx, my)) ->
    worldToMap cm wx' wy' = Ret (Some (mx', my')) ->
    ((wx <=? wx') = true -> (mx <= mx')%Z)
    /\ ((wy <=? wy') = true -> (my <= my')%Z).
Proof.
  intros cm wx wy wx' wy' mx my mx' my' Hres H1 H2.
  destruct (worldToMap_Some_inv _ _ _ _ _ (or_intror Hres) H1)
    as (_ & _ & Hx & Hy & _).
  destruct (worldToMap_Some_inv _ _ _ _ _ (or_intror Hres) H2)
    as (_ & _ & Hx' & Hy' & _).
  split; intros Hle.
  - exact (cell_axis_monotone _ _ _ _ _ _ Hres Hle Hx Hx').
  - exact (cell_axis_monotone _ _ _ _ _ _ Hres Hle Hy Hy').
Qed.


(** ** PlannerFacade, continued *)

(** X9.  How [makePlan] fails.  With the start off the grid it returns false
    with the plan's waypoints cleared and nothing else touched.  With the
    start on the grid and the goal off it, it also returns false with the
    waypoints cleared, but by then the start cell has been set free in the
    cost grid and the solver has been resized and handed the cost map; no
    propagation has run. *)
Theorem makePlan_off_grid :
  forall (solver : NavFnSolver) (self : NavfnPlanner) (start goal : Pose.t)
         (tolerance : float) (plan : Path.t),
    let cm := costmap_ self in
    (worldToMap cm (Point.x (Pose.position start))
                (Point.y (Pose.position start)) = Ret None ->
     makePlan self start goal tolerance plan
     = Ret (false, Path.set_poses plan [], self))
    /\
    (forall mx my,
        worldToMap cm (Point.x (Pose.position start))
                   (Point.y (Pose.position start)) = Ret (Some (mx, my)) ->
        worldToMap cm (Point.x (Pose.position goal))
                   (Point.y (Pose.position goal)) = Ret None ->
        let cleared := setCost cm mx my FREE_SPACE in
        makePlan self start goal tolerance plan
        = Ret (false, Path.set_poses plan [],
               with_planner (with_costmap self cleared)
                 (setCostmap (getCharMap cleared) true (allow_unknown_ self)
                    (setNavArr (getSizeInCellsX cm) (getSizeInCellsY cm)
                       (planner_ self))))).
Proof.
  intros solver self start goal tolerance plan cm. split.
  - intros Hs. unfold makePlan. fold cm. now rewrite Hs.
  - intros mx my Hs Hg cleared. unfold makePlan. fold cm. rewrite Hs.
    cbn [bind].
    change (costmap_ (with_planner (clearRobotCell self mx my) _)) with cleared.
    unfold cleared at 1. rewrite worldToMap_setCost. rewrite Hg.
    reflexivity.
Qed.

(** X10.  What [makePlan] returns for a start and a goal on the grid when
    the point count [n = trunc (sqrt (dx^2 + dy^2) / resolution)], computed
    in doubles, can be converted: true, and a plan stamped with the node's
    time and the global frame that holds the [n] points
    [start + k * ((goal - start) / n)] for k = 0 .. n - 1, each with z = 0
    and the identity orientation, followed by the goal pose itself.
    Whatever the plan held before is discarded. *)
Theorem makePlan_straight_line :
  forall (solver : NavFnSolver) (self : NavfnPlanner) (start goal : Pose.t)
         (tolerance : float) (plan : Path.t) (cs cg : Z * Z) (n : Z),
    let cm := costmap_ self in
    let dx := Point.x (Pose.position goal) - Point.x (Pose.position start) in
    let dy := Point.y (Pose.position goal) - Point.y (Pose.position start) in
    worldToMap cm (Point.x (Pose.position start))
               (Point.y (Pose.position start)) = Ret (Some cs) ->
    worldToMap cm (Point.x (Pose.position goal))
               (Point.y (Pose.position goal)) = Ret (Some cg) ->
    static_cast_size_t (sqrt (dx * dx + dy * dy) / getResolution cm) = Ret n ->
    plan_of (makePlan self start goal tolerance plan)
    = Ret (true,
           Path.mk (Header.mk (node_now self) (global_frame_ self))
             (map (fun k : nat =>
                     waypoint
                       (Point.x (Pose.position start)
                        + double_of_Z (Z.of_nat k) * (dx / double_of_Z n))
                       (Point.y (Pose.position start)
                        + double_of_Z (Z.of_nat k) * (dy / double_of_Z n)))
                  (seq 0 (Z.to_nat n))
              ++ [goal_copy goal])).
Proof.
  intros solver self start goal tolerance plan cs cg n cm dx dy Hs Hg Hn.
  destruct (makePlan_on_grid self start goal tolerance plan cs cg n Hs Hg Hn)
    as [self' Hplan].
  rewrite Hplan. reflexivity.
Qed.

(** X12.  The plan of [makePlan] does not depend on the solver: two planners
    with the same cost-grid, global frame and clock return the same flag and
    the same plan for a request, whatever their solvers compute, whatever
    their potential arrays hold, whichever propagation they select and
    whatever tolerance is asked for. *)
Theorem makePlan_ignores_solver :
  forall (solver1 solver2 : NavFnSolver) (self1 self2 : NavfnPlanner)
         (start goal : Pose.t) (tolerance1 tolerance2 : float) (plan : Path.t),
    costmap_ self1 = costmap_ self2 ->
    global_frame_ self1 = global_frame_ self2 ->
    node_now self1 = node_now self2 ->
    plan_of (@makePlan solver1 self1 start goal tolerance1 plan)
    = plan_of (@makePlan solver2 self2 start goal tolerance2 plan).
Proof.
  intros solver1 solver2 self1 self2 start goal tol1 tol2 plan Hcm Hframe Hnow.
  unfold plan_of, makePlan. rewrite <- Hcm.
  destruct (worldToMap (costmap_ self1) (Point.x (Pose.position start))
              (Point.y (Pose.position start))) as [[[mx my] | ] | | ];
    cbn [bind]; try reflexivity.
  cbn [costmap_ with_planner clearRobotCell with_costmap].
  rewrite <- Hcm. rewrite !worldToMap_setCost.
  destruct (worldToMap (costmap_ self1) (Point.x (Pose.position goal))
              (Point.y (Pose.position goal))) as [[[gx gy] | ] | | ];
    cbn [bind]; try reflexivity.
  cbn [costmap_ with_planner clearRobotCell with_costmap getResolution setCost
       node_now global_frame_].
  rewrite <- Hframe, <- Hnow.
  destruct (static_cast_size_t _) as [n | | ]; cbn [bind]; reflexivity.
Qed.

Lemma vec_set_same {A : Type} (v : list A) (i : nat) (a : A) :
  (i < List.length v)%nat -> nth_error (vec_set v i a) i = Some a.
Proof.
  revert i. induction v as [ | b v IH]; intros [ | i] Hlen; simpl in *;
    try lia; [reflexivity | apply IH; lia].
Qed.

Lemma vec_set_other {A : Type} (v : list A) (i j : nat) (a : A) :
  i <> j -> nth_error (vec_set v i a) j = nth_error v j.
Proof.
  revert i j. induction v as [ | b v IH]; intros [ | i] [ | j] Hne; simpl;
    try reflexivity; try congruence.
  apply IH. congruence.
Qed.

(** X13.  [makePlan] writes to the cost grid: once the start is on the grid,
    whether the call then succeeds or fails, the grid it leaves has the
    start's cell set to [FREE_SPACE], every other cell as before, and the
    same size, resolution and origin. *)
Theorem makePlan_clears_start_cell :
  forall (solver : NavFnSolver) (self self' : NavfnPlanner) (start goal : Pose.t)
         (tolerance : float) (plan plan' : Path.t) (ok : bool) (mx my : Z),
    let cm := costmap_ self in
    let cm' := costmap_ self' in
    let index := Z.to_nat (my * getSizeInCellsX cm + mx) in
    worldToMap cm (Point.x (Pose.position start))
               (Point.y (Pose.position start)) = Ret (Some (mx, my)) ->
    makePlan self start goal tolerance plan = Ret (ok, plan', self') ->
    (getSizeInCellsX cm * getSizeInCellsY cm
     <= Z.of_nat (List.length (getCharMap cm)))%Z ->
    nth_error (getCharMap cm') index = Some FREE_SPACE
    /\ (forall j, j <> index ->
                  nth_error (getCharMap cm') j = nth_error (getCharMap cm) j)
    /\ getSizeInCellsX cm' = getSizeInCellsX cm
    /\ getSizeInCellsY cm' = getSizeInCellsY cm
    /\ getResolution cm' = getResolution cm
    /\ getOriginX cm' = getOriginX cm
    /\ getOriginY cm' = getOriginY cm.
Proof.
  intros solver self self' start goal tolerance plan plan' ok mx my
         cm cm' index Hs Hret Hlen.
  destruct (worldToMap_Some_range _ _ _ _ _ Hs) as [Hmx Hmy].
  assert (Ecm : cm' = setCost cm mx my FREE_SPACE).
  { unfold cm'. revert Hret. unfold makePlan. fold cm. rewrite Hs. cbn [bind].
    clear Hs.
    destruct (worldToMap _ _ _) as [[[gx gy] | ] | | ]; cbn [bind];
      try discriminate.
    - destruct (static_cast_size_t _) as [n | | ]; cbn [bind]; try discriminate.
      intros Hret. inversion Hret; subst. reflexivity.
    - intros Hret. inversion Hret; subst. reflexivity. }
  rewrite Ecm. unfold setCost. cbn [getCharMap getSizeInCellsX getSizeInCellsY
                                    getResolution getOriginX getOriginY].
  split; [ | split; [ | repeat split]].
  - apply vec_set_same. unfold index. fold cm in Hmx, Hmy. nia.
  - intros j Hj. apply vec_set_other. unfold index in Hj. congruence.
Qed.

(** ** PathExtractor, continued *)

(** X14.  What [getPlanFromPotential] returns when the solver found a path
    (goal on the grid, [calcPath] non-zero, the path arrays at least
    [getPathLen] long): the first [getPathLen] points of the solver's path,
    each mapped to the world with [mapToWorld], in reverse order (the
    solver's last point first), under a plan header stamped with the node's
    time and the global frame; the flag is false only if [getPathLen] is
    not positive. *)
Theorem getPlanFromPotential_reverses_path :
  forall (solver : NavFnSolver) (self : NavfnPlanner) (goal : Pose.t)
         (plan : Path.t) (mx my : Z),
    let cm := costmap_ self in
    let traced :=
      calcPath (calcPath_bound cm)
               (setStart (to_int mx, to_int my) (planner_ self)) in
    let pl := snd traced in
    let len := Z.to_nat (getPathLen pl) in
    worldToMap cm (Point.x (Pose.position goal)) (Point.y (Pose.position goal))
      = Ret (Some (mx, my)) ->
    fst traced <> 0%Z ->
    (len <= List.length (getPathX pl))%nat ->
    (len <= List.length (getPathY pl))%nat ->
    getPlanFromPotential self goal plan
    = Ret (negb (len =? 0)%nat,
           Path.mk (Header.mk (node_now self) (global_frame_ self))
             (rev (map (path_waypoint cm)
                       (firstn len (combine (getPathX pl) (getPathY pl))))),
           with_planner self pl).
Proof.
  intros solver self goal plan mx my. cbv zeta.
  destruct (calcPath (calcPath_bound (costmap_ self))
              (setStart (to_int mx, to_int my) (planner_ self)))
    as [path_len pl] eqn:Et.
  cbn [fst snd]. intros Hw Hfound Hx Hy.
  unfold getPlanFromPotential. rewrite Hw. cbn [bind]. rewrite Et.
  destruct (Z.eqb_spec path_len 0) as [E | _]; [contradiction | ].
  cbn [planner_ costmap_ with_planner node_now global_frame_
       Path.poses Path.set_header Path.set_poses].
  rewrite (path_to_world_closed_form _ _ _ _ Hx Hy). cbn [bind app].
  cbn [Path.poses Path.set_header Path.set_poses Path.header].
  f_equal. f_equal. f_equal. f_equal.
  destruct (Z.to_nat (getPathLen pl)) as [ | k]; [reflexivity | ].
  destruct (getPathX pl) as [ | x xs]; [simpl in Hx; lia | ].
  destruct (getPathY pl) as [ | y ys]; [simpl in Hy; lia | ].
  cbn [combine firstn map rev]. destruct (rev _); reflexivity.
Qed.

(** ** createPlan *)

(** X15.  What a caller of [createPlan] gets.  If the start or the goal is
    off the grid the returned path is empty (default header, no waypoint):
    the failure is not reported otherwise.  If both are on the grid and the
    point count [n], computed in doubles, can be converted, the path has the
    [n] interpolated waypoints followed by the goal pose. *)
Theorem createPlan_result :
  forall (solver : NavFnSolver) (self : NavfnPlanner) (start goal : PoseStamped.t),
    let cm := costmap_ self in
    let on_grid (p : PoseStamped.t) :=
      worldToMap cm (Point.x (Pose.position (PoseStamped.pose p)))
                 (Point.y (Pose.position (PoseStamped.pose p))) in
    (on_grid start = Ret None ->
     exists self', createPlan self start goal = Ret (Path.mk Header.empty [], self'))
    /\ (forall cs, on_grid start = Ret (Some cs) -> on_grid goal = Ret None ->
        exists self', createPlan self start goal = Ret (Path.mk Header.empty [], self'))
    /\ (forall cs cg n,
          on_grid start = Ret (Some cs) -> on_grid goal = Ret (Some cg) ->
          point_count cm (PoseStamped.pose start) (PoseStamped.pose goal) = Ret n ->
          exists self',
            createPlan self start goal
            = Ret (Path.mk (Header.mk (node_now self) (global_frame_ self))
                     (straight_line (PoseStamped.pose start) (PoseStamped.pose goal) n
                      ++ [goal_copy (PoseStamped.pose goal)]), self')
            /\ List.length (straight_line (PoseStamped.pose start)
                              (PoseStamped.pose goal) n) = Z.to_nat n).
Proof.
  intros solver self start goal cm on_grid.
  set (self0 := if isPlannerOutOfDate self
                then with_planner self
                       (setNavArr (getSizeInCellsX (costmap_ self))
                          (getSizeInCellsY (costmap_ self)) (planner_ self))
                else self).
  assert (Ecm : costmap_ self0 = cm)
    by (unfold self0; destruct (isPlannerOutOfDate self); reflexivity).
  assert (Enow : node_now self0 = node_now self)
    by (unfold self0; destruct (isPlannerOutOfDate self); reflexivity).
  assert (Eframe : global_frame_ self0 = global_frame_ self)
    by (unfold self0; destruct (isPlannerOutOfDate self); reflexivity).
  unfold on_grid. split; [ | split].
  - intros Hs. unfold createPlan. fold self0. unfold makePlan.
    rewrite Ecm, Hs. cbn [bind snd fst]. eexists. reflexivity.
  - intros [mx my] Hs Hg. unfold createPlan. fold self0. unfold makePlan.
    rewrite Ecm, Hs. cbn [bind].
    change (costmap_ (with_planner (clearRobotCell self0 mx my) _))
      with (setCost (costmap_ self0) mx my FREE_SPACE).
    rewrite worldToMap_setCost, Ecm, Hg. cbn [bind snd fst].
    eexists. reflexivity.
  - intros cs cg n Hs Hg Hn.
    rewrite <- Ecm in Hs, Hg, Hn.
    destruct (makePlan_on_grid self0 (PoseStamped.pose start)
                (PoseStamped.pose goal) (tolerance_ self0)
                (Path.mk Header.empty []) cs cg n Hs Hg Hn)
      as [self' Hplan].
    exists self'. unfold createPlan. fold self0. rewrite Hplan.
    cbn [bind snd fst]. rewrite Enow, Eframe.
    split; [reflexivity | ].
    unfold straight_line. now rewrite length_map, length_seq.
Qed.

(** ** Instances of the further properties *)

(** X1 at work on the grid of 5 cm cells: 0.125 / 0.05 is the double 2.5,
    a halfway quotient, and (0.125, 0.125) lies in cell (3, 3). *)
Lemma worldToMap_cell_extent_witness :
  let cm := grid_5cm in
  (exists q : Q, double_value (0.125 / 0.05) = Some q /\ (q == 5 # 2)%Q)
  /\ worldToMap cm 0.125 0.125 = Ret (Some (3, 3)%Z).
Proof.
  cbv zeta.
  split; [eexists; split; [vm_compute; reflexivity | reflexivity] | ].
  apply (worldToMap_cell_extent grid_5cm 0.125 0.125 3 3).
  - vm_compute. discriminate.
  - vm_compute. discriminate.
  - split; [reflexivity | ]. split; [reflexivity | ].
    split; [vm_compute; split; [discriminate | reflexivity] | ].
    split; [vm_compute; split; [discriminate | reflexivity] | ].
    eexists. eexists.
    split; [vm_compute; reflexivity | ].
    split; [vm_compute; reflexivity | ].
    split; (vm_compute; split; [discriminate | reflexivity]).
Defined.

(** X8 at work: tolerance -1 around the reached cell (1, 1) gives an empty
    window.  Not every negative tolerance does: -2^-60 is absorbed by the
    subtraction and the addition at 1, the window is the point itself and
    the answer is true. *)
Lemma validPointPotential_empty_window_witness :
  let self := planner_on grid_goal_lethal field_goal_blocked in
  validPointPotential self (Point.mk 1 1 0) (-1) 1 = Ret false
  /\ validPointPotential self (Point.mk 1 1 0) (-0x1p-60) 2 = Ret true.
Proof.
  cbv zeta. split; [ | vm_compute; reflexivity].
  apply (proj1 (validPointPotential_empty_window
                  (planner_on grid_goal_lethal field_goal_blocked)
                  (Point.mk 1 1 0) (-1) 1 (Nat.le_refl 1))).
  reflexivity.
Defined.

(** X3 at work: (0.5, 0.5) and (1.25, 2.25) on the 3 x 3 unit grid map to
    the cells (1, 1) and (1, 2). *)
Lemma worldToMap_monotone_witness :
  ((0.5 <=? 1.25) = true -> (1 <= 1)%Z)
  /\ ((0.5 <=? 2.25) = true -> (1 <= 2)%Z).
Proof.
  apply (worldToMap_monotone (free_unit_grid 3 3) 0.5 0.5 1.25 2.25 1 1 1 2).
  - vm_compute. reflexivity.
  - vm_compute. reflexivity.
  - vm_compute. reflexivity.
Defined.

(** X5 at work: the path (0,0), (2,0) smoothed toward (1,0). *)
Lemma smoothApproachToGoal_postconditions_witness :
  let goal := pose_at 1 0 in
  let plan := Path.mk Header.empty [waypoint 0 0; waypoint 2 0] in
  let plan' := Path.mk Header.empty [waypoint 0 0; PoseStamped.mk Header.empty goal] in
  Path.header plan' = Path.header plan
  /\ firstn (2 - 1) (Path.poses plan') = firstn (2 - 1) (Path.poses plan)
  /\ (List.length (Path.poses plan') = 2%nat
      \/ List.length (Path.poses plan') = 3%nat)
  /\ PoseStamped.pose (last (Path.poses plan') (waypoint 0 0)) = goal.
Proof.
  cbv zeta.
  apply (smoothApproachToGoal_postconditions (pose_at 1 0)
           (Path.mk Header.empty [waypoint 0 0; waypoint 2 0])
           (Path.mk Header.empty
              [waypoint 0 0; PoseStamped.mk Header.empty (pose_at 1 0)])
           (waypoint 0 0)).
  vm_compute. reflexivity.
Defined.

(** X6 at work: the point (2, 1) of the 3 x 3 grid lies in cell (2, 1),
    whose potential 3 is at index 5. *)
Lemma getPointPotential_of_cell_witness :
  let self := planner_on grid_goal_lethal field_goal_blocked in
  let cm := costmap_ self in
  getPointPotential self (Point.mk 2 1 0)
  = vec_at (potarr (planner_ self)) (1 * getSizeInCellsX cm + 2)
  /\ vec_at (potarr (planner_ self)) (1 * getSizeInCellsX cm + 2) = Ret 3.
Proof.
  cbv zeta. split; [ | vm_compute; reflexivity].
  refine (proj1 (getPointPotential_of_cell
                   (planner_on grid_goal_lethal field_goal_blocked)
                   (Point.mk 2 1 0) 2 1 _ _ _)).
  - vm_compute. reflexivity.
  - reflexivity.
  - vm_compute. discriminate.
Defined.

(** X7 at work: the unreached cell (2, 2), tolerance zero. *)
Lemma validPointPotential_zero_tolerance_witness :
  let self := planner_on grid_goal_lethal field_goal_blocked in
  validPointPotential self (Point.mk 2 2 0) 0 2 = Ret (POT_HIGH <? POT_HIGH)
  /\ (tolerance_ self = 0 ->
      validPointPotential_default self (Point.mk 2 2 0) 2
      = Ret (POT_HIGH <? POT_HIGH)).
Proof.
  cbv zeta.
  apply (validPointPotential_zero_tolerance
           (planner_on grid_goal_lethal field_goal_blocked)
           (Point.mk 2 2 0) POT_HIGH 2).
  - reflexivity.
  - reflexivity.
  - reflexivity.
  - reflexivity.
  - vm_compute. reflexivity.
  - apply Nat.le_refl.
Defined.

(** X10 at work at resolution 0.1: from (0, 0) to (0.5, 0) the double
    quotient 0.5 / 0.1 is 5, so the plan holds five interpolated points and
    the goal. *)
Lemma makePlan_straight_line_witness :
  let solver := field_solver field_goal_blocked in
  let self := planner_on (free_grid 8 8 0.1 0 0) field_goal_blocked in
  let start := pose_at 0 0 in
  let goal := pose_at 0.5 0 in
  static_cast_size_t (sqrt ((0.5 - 0) * (0.5 - 0) + (0 - 0) * (0 - 0)) / 0.1)
  = Ret 5%Z
  /\ plan_of (makePlan self start goal 1 empty_path)
     = Ret (true,
            Path.mk (Header.mk (node_now self) (global_frame_ self))
              (map (fun k : nat =>
                      waypoint
                        (0 + double_of_Z (Z.of_nat k) * ((0.5 - 0) / double_of_Z 5))
                        (0 + double_of_Z (Z.of_nat k) * ((0 - 0) / double_of_Z 5)))
                   (seq 0 5)
               ++ [goal_copy goal])).
Proof.
  cbv zeta. split; [vm_compute; reflexivity | ].
  apply (makePlan_straight_line (field_solver field_goal_blocked)
           (planner_on (free_grid 8 8 0.1 0 0) field_goal_blocked)
           (pose_at 0 0) (pose_at 0.5 0) 1 empty_path (0, 0)%Z (5, 0)%Z 5).
  - vm_compute. reflexivity.
  - vm_compute. reflexivity.
  - vm_compute. reflexivity.
Defined.

(** X12 at work: two planners on the same grid with different potential
    fields, solvers and tolerances. *)
Lemma makePlan_ignores_solver_witness :
  plan_of (@makePlan (field_solver field_goal_blocked)
             (planner_on grid_goal_lethal field_goal_blocked)
             (pose_at 0 0) (pose_at 2 2) 1 empty_path)
  = plan_of (@makePlan (path_solver [] [])
               (planner_on grid_goal_lethal field_walled_in)
               (pose_at 0 0) (pose_at 2 2) 0 empty_path).
Proof.
  apply (makePlan_ignores_solver (field_solver field_goal_blocked)
           (path_solver [] [])
           (planner_on grid_goal_lethal field_goal_blocked)
           (planner_on grid_goal_lethal field_walled_in)
           (pose_at 0 0) (pose_at 2 2) 1 0 empty_path);
    reflexivity.
Defined.

(** X13 at work: the robot's cell (0,0) is marked lethal before the call and
    free after it. *)
Lemma makePlan_clears_start_cell_witness :
  let solver := field_solver field_goal_blocked in
  let self := planner_on grid_start_lethal field_goal_blocked in
  nth_error (getCharMap (costmap_ self)) 0 = Some LETHAL_OBSTACLE
  /\ exists plan' self',
       makePlan self (pose_at 0 0) (pose_at 2 2) 1 empty_path
       = Ret (true, plan', self')
       /\ nth_error (getCharMap (costmap_ self')) 0 = Some FREE_SPACE.
Proof.
  cbv zeta. split; [reflexivity | ].
  eexists. eexists. split; [vm_compute; reflexivity | ].
  refine (proj1 (makePlan_clears_start_cell (field_solver field_goal_blocked)
                   (planner_on grid_start_lethal field_goal_blocked) _
                   (pose_at 0 0) (pose_at 2 2) 1 empty_path _ true 0 0 _ _ _)).
  - vm_compute. reflexivity.
  - vm_compute. reflexivity.
  - vm_compute. discriminate.
Defined.

(** X14 at work: the solver's path (2,2), (1,1), (0,0) comes back as the
    waypoints (0,0), (1,1), (2,2). *)
Lemma getPlanFromPotential_reverses_path_witness :
  let solver := path_solver [2; 1; 0] [2; 1; 0] in
  let self := planner_on (free_unit_grid 3 3) field_goal_blocked in
  let cm := costmap_ self in
  getPlanFromPotential self (pose_at 2 2) empty_path
  = Ret (negb (3 =? 0)%nat,
         Path.mk (Header.mk (node_now self) (global_frame_ self))
           (rev (map (path_waypoint cm)
                     (firstn 3 (combine [2; 1; 0] [2; 1; 0])))),
         with_planner self
           (mkNavFn 3 3 field_goal_blocked [2; 1; 0] [2; 1; 0] 3
              (0, 0)%Z (0, 0)%Z)).
Proof.
  cbv zeta.
  apply (getPlanFromPotential_reverses_path (path_solver [2; 1; 0] [2; 1; 0])
           (planner_on (free_unit_grid 3 3) field_goal_blocked)
           (pose_at 2 2) empty_path 2 2).
  - vm_compute. reflexivity.
  - vm_compute. discriminate.
  - vm_compute. apply Nat.le_refl.
  - vm_compute. apply Nat.le_refl.
Defined.

(** X15 at work at resolution 0.1, from (0, 0) to (0.5, 0): five
    interpolated waypoints and the goal. *)
Lemma createPlan_result_witness :
  let solver := field_solver field_goal_blocked in
  let self := planner_on (free_grid 8 8 0.1 0 0) field_goal_blocked in
  let start := PoseStamped.mk Header.empty (pose_at 0 0) in
  let goal := PoseStamped.mk Header.empty (pose_at 0.5 0) in
  exists self',
    createPlan self start goal
    = Ret (Path.mk (Header.mk (node_now self) (global_frame_ self))
             (straight_line (pose_at 0 0) (pose_at 0.5 0) 5
              ++ [goal_copy (pose_at 0.5 0)]), self')
    /\ List.length (straight_line (pose_at 0 0) (pose_at 0.5 0) 5) = 5%nat.
Proof.
  cbv zeta.
  refine (proj2 (proj2
            (createPlan_result (field_solver field_goal_blocked)
               (planner_on (free_grid 8 8 0.1 0 0) field_goal_blocked)
               (PoseStamped.mk Header.empty (pose_at 0 0))
               (PoseStamped.mk Header.empty (pose_at 0.5 0))))
            (0, 0)%Z (5, 0)%Z 5%Z _ _ _).
  - vm_compute. reflexivity.
  - vm_compute. reflexivity.
  - vm_compute. reflexivity.
Defined.

